(** * bbgo: the session-scoped indicator registry ([pkg/bbgo/session.go])

    A shallow embedding of [StandardIndicatorSet] and [ExchangeSession].

    Go pointers to indicator objects are addresses into an allocation-ordered
    heap, so that "the same instance" is equality of addresses.  The
    functions that allocate or bind run in a small state monad over that
    heap; the session lives in a heap of its own and is reached through a
    pointer, as the pointer receivers of the source do. *)

From Stdlib Require Import Floats.PrimFloat.
From stdpp Require Import base option list gmap sets strings countable.

Local Open Scope Z_scope.

(** * Part I: the model *)

(** ** Package [types]: keys and what else comes from other packages *)

Module types.
(** Modelled from the spec: [types.Interval] is not under src/.  The source
    uses it as a map key that ranges over [types.SupportedIntervals]; the
    spec calls it a time granularity such as "1m" or "1h". *)
Definition Interval := string.

(** [types.IntervalWindow{Interval: ..., Window: ...}], a comparable struct
    used as map key; [Window] is a Go [int] (no arithmetic is done on it). *)
Record IntervalWindow := mkIW { Interval_of : Interval; Window : Z }.

#[global] Instance IntervalWindow_eq_dec : EqDecision IntervalWindow.
Proof. solve_decision. Defined.

#[global] Instance IntervalWindow_countable : Countable IntervalWindow.
Proof.
  apply (inj_countable' (λ iw, (Interval_of iw, Window iw))
                        (λ p, mkIW p.1 p.2)).
  by intros [].
Defined.

(** The rest of what session.go takes from other packages, none of it
    under src/: the key types of the subscription manifest (comparable, as
    Go requires of map keys), the element types of the session's maps with
    the zero value a failed lookup returns, and the values the composite
    literal of [NewExchangeSession] is filled with. *)
Class External := {
  Channel : Type;
  Channel_eq_dec :: EqDecision Channel;
  Channel_countable :: Countable Channel;
  SubscribeOptions : Type;
  SubscribeOptions_eq_dec :: EqDecision SubscribeOptions;
  SubscribeOptions_countable :: Countable SubscribeOptions;
  Market : Type;
  zeroMarket : Market;
  Trade : Type;
  Account : Type;
  newAccount : Account;
  Stream : Type;
  Exchange : Type;
  NewStream : Exchange → Stream;
  Notifiability : Type;
  newNotifiability : Notifiability
}.

End types.
Import (hints) types.
Import types(Interval, IntervalWindow, mkIW, Interval_of, Window).

(** ** Package [indicator]: heap objects and [Bind] *)

(** A Go pointer: [nil] or the address of an allocated object.  Pointers are
    typed in Go, so each pointee type has its own address space: indicator
    objects in [objs] below, sessions in the session heap. *)
Inductive ptr := nil | addr (l : nat).

#[global] Instance ptr_eq_dec : EqDecision ptr.
Proof. solve_decision. Defined.

(** [*MarketDataStore]: the store is external, only its address matters here. *)
Definition StorePtr := nat.

(** The indicator structs as the composite literals of the source fill them:
    [&indicator.SMA{IntervalWindow: iw}], [&indicator.EWMA{IntervalWindow: iw}]
    and [&indicator.BOLL{IntervalWindow: iw, K: k}]; every other field keeps
    its zero value. *)
Inductive Indicator :=
  | SMAObj (iw : IntervalWindow)
  | EWMAObj (iw : IntervalWindow)
  | BOLLObj (iw : IntervalWindow) (K : float).

(** The memory the registry works on: the allocated indicator objects in
    allocation order (an object's address is its position) and the consumers
    registered with the market data stores, in registration order. *)
Record Mem := mkMem {
  objs : list Indicator;
  callbacks : list (StorePtr * ptr)
}.

Definition M (A : Type) : Type := Mem → A * Mem.

#[global] Instance M_ret : MRet M := λ A a m, (a, m).

#[global] Instance M_bind : MBind M :=
  λ A B k c m, let '(a, m') := c m in k a m'.

(** [&T{...}]: allocate a fresh object and return its address. *)
Definition new (o : Indicator) : M ptr :=
  λ m, (addr (length (objs m)), mkMem (objs m ++ [o]) (callbacks m)).

(** Modelled from the spec: [inc.Bind(store)] of package [indicator] is not
    under src/.  Binding registers the indicator as a consumer of the store's
    update stream; it is a synchronous registration with no failure mode. *)
Definition Bind (inc : ptr) (store : StorePtr) : M unit :=
  λ m, (tt, mkMem (objs m) (callbacks m ++ [(store, inc)])).

(** Number of times [Bind] was called on [store]: the bind-count probe. *)
Definition bind_count (store : StorePtr) (m : Mem) : nat :=
  length (filter (λ c, c.1 = store) (callbacks m)).

(** [inc] is registered with [store]. *)
Definition bound (store : StorePtr) (inc : ptr) (m : Mem) : Prop :=
  (store, inc) ∈ callbacks m.

(** ** [StandardIndicatorSet] *)

(** The three map fields are finite maps: they stand for the maps made by
    [NewStandardIndicatorSet] (lines 22-24).  A nil map, as in a zero-value
    struct, on which a Go map write panics, has no counterpart here; the
    operations below are those of the source on registries that come from
    the constructor. *)
Record StandardIndicatorSet := mkSet {
  Symbol : string;
  SMA : gmap IntervalWindow ptr;
  EWMA : gmap IntervalWindow ptr;
  BOLL : gmap IntervalWindow ptr;
  store : StorePtr
}.

Definition set_SMA (f : gmap IntervalWindow ptr → gmap IntervalWindow ptr)
    (s : StandardIndicatorSet) : StandardIndicatorSet :=
  mkSet (Symbol s) (f (SMA s)) (EWMA s) (BOLL s) (store s).
Definition set_EWMA (f : gmap IntervalWindow ptr → gmap IntervalWindow ptr)
    (s : StandardIndicatorSet) : StandardIndicatorSet :=
  mkSet (Symbol s) (SMA s) (f (EWMA s)) (BOLL s) (store s).
Definition set_BOLL (f : gmap IntervalWindow ptr → gmap IntervalWindow ptr)
    (s : StandardIndicatorSet) : StandardIndicatorSet :=
  mkSet (Symbol s) (SMA s) (EWMA s) (f (BOLL s)) (store s).

(** Go's [v, ok := m[k]]: the zero value of the element type and [false]
    when [k] is absent. *)
Definition comma_ok `{Countable K} {V} (zero : V) (m : gmap K V) (k : K)
    : V * bool :=
  match m !! k with
  | Some v => (v, true)
  | None => (zero, false)
  end.

(** Go's index expression [m[k]] on a map of pointers. *)
Definition index (m : gmap IntervalWindow ptr) (k : IntervalWindow) : ptr :=
  (comma_ok nil m k).1.

(** [for _, x := range xs { s = body s x }] *)
Fixpoint for_range {A S} (xs : list A) (body : S → A → M S) (s : S) : M S :=
  match xs with
  | [] => mret s
  | x :: xs' => s' ← body s x; for_range xs' body s'
  end.

(** Body of the inner loop of [NewStandardIndicatorSet] (lines 31-36). *)
Definition prewarm_window (store : StorePtr) (interval : Interval)
    (set : StandardIndicatorSet) (window : Z) : M StandardIndicatorSet :=
  let iw := mkIW interval window in
  p ← new (SMAObj iw);
  let set := set_SMA <[iw := p]> set in
  Bind (index (SMA set) iw) store;;
  q ← new (EWMAObj iw);
  let set := set_EWMA <[iw := q]> set in
  Bind (index (EWMA set) iw) store;;
  mret set.

(** Body of the outer loop (lines 30-44). *)
Definition prewarm_interval (store : StorePtr) (set : StandardIndicatorSet)
    (interval : Interval) : M StandardIndicatorSet :=
  set ← for_range [7; 25; 99] (prewarm_window store interval) set;
  let iw := mkIW interval 21 in
  b ← new (BOLLObj iw 2%float);
  let set := set_BOLL <[iw := b]> set in
  Bind (index (BOLL set) iw) store;;
  mret set.

(** [NewStandardIndicatorSet(symbol, store)].  [types.SupportedIntervals] is
    not under src/; the source ranges over its keys, which the Go runtime
    yields each once in an unspecified order.  [SupportedIntervals] is that
    sequence of keys. *)
Definition NewStandardIndicatorSet (SupportedIntervals : list Interval)
    (symbol : string) (store : StorePtr) : M StandardIndicatorSet :=
  let set := mkSet symbol ∅ ∅ ∅ store in
  for_range SupportedIntervals (prewarm_interval store) set.

(** [set.GetBOLL(iw, bandWidth)].  The [inc :=] inside the [if] declares a
    new variable; the [inc] of the [return] is the one of the lookup. *)
Definition GetBOLL (set : StandardIndicatorSet) (iw : IntervalWindow)
    (bandWidth : float) : M (ptr * StandardIndicatorSet) :=
  let '(inc, ok) := comma_ok nil (BOLL set) iw in
  if negb ok then
    inc' ← new (BOLLObj iw bandWidth);
    Bind inc' (store set);;
    let set := set_BOLL <[iw := inc']> set in
    mret (inc, set)
  else mret (inc, set).

(** [set.GetSMA(iw)] *)
Definition GetSMA (set : StandardIndicatorSet) (iw : IntervalWindow)
    : M (ptr * StandardIndicatorSet) :=
  let '(inc, ok) := comma_ok nil (SMA set) iw in
  if negb ok then
    inc' ← new (SMAObj iw);
    Bind inc' (store set);;
    let set := set_SMA <[iw := inc']> set in
    mret (inc, set)
  else mret (inc, set).

(** [set.GetEWMA(iw)] *)
Definition GetEWMA (set : StandardIndicatorSet) (iw : IntervalWindow)
    : M (ptr * StandardIndicatorSet) :=
  let '(inc, ok) := comma_ok nil (EWMA set) iw in
  if negb ok then
    inc' ← new (EWMAObj iw);
    Bind inc' (store set);;
    let set := set_EWMA <[iw := inc']> set in
    mret (inc, set)
  else mret (inc, set).

(** ** Vocabulary of the properties of the registry *)

(** The memory after one allocation followed by one [Bind] of the new
    object to [st]. *)
Definition alloc_bound (o : Indicator) (st : StorePtr) (m : Mem) : Mem :=
  mkMem (objs m ++ [o]) (callbacks m ++ [(st, addr (length (objs m)))]).

Definition prewarm_objs (i : Interval) : list Indicator :=
  [SMAObj (mkIW i 7); EWMAObj (mkIW i 7);
   SMAObj (mkIW i 25); EWMAObj (mkIW i 25);
   SMAObj (mkIW i 99); EWMAObj (mkIW i 99);
   BOLLObj (mkIW i 21) 2%float].

Definition prewarm_binds (st : StorePtr) (n : nat) : list (StorePtr * ptr) :=
  (λ k, (st, addr (n + k)%nat)) <$> seq 0 7.

(** [m'] is [m] after further allocations and registrations. *)
Definition mem_extends (m m' : Mem) : Prop :=
  objs m `prefix_of` objs m' ∧ callbacks m `prefix_of` callbacks m'.

(** [p] is an instance built from [mk iw] that was allocated after [m] and
    is, in [m'], registered with the store [st]. *)
Definition fresh_in (mk : IntervalWindow → Indicator) (st : StorePtr)
    (m m' : Mem) (iw : IntervalWindow) (p : ptr) : Prop :=
  ∃ l, p = addr l ∧ (length (objs m) ≤ l)%nat ∧
       objs m' !! l = Some (mk iw) ∧ bound st p m'.

(** The band indicator the constructor builds for a key: [K] is 2.0. *)
Definition BOLLObj2 (iw : IntervalWindow) : Indicator := BOLLObj iw 2%float.

Definition keys_of (ivs : list Interval) (ws : list Z) : list IntervalWindow :=
  i ← ivs; mkIW i <$> ws.

Definition is_SMA (iw : IntervalWindow) (o : Indicator) : Prop := o = SMAObj iw.
Definition is_EWMA (iw : IntervalWindow) (o : Indicator) : Prop := o = EWMAObj iw.
Definition is_BOLL (iw : IntervalWindow) (o : Indicator) : Prop :=
  ∃ K, o = BOLLObj iw K.

(** Every entry of a map is the address of an allocated object of the map's
    family, built for the entry's key and registered with the store. *)
Definition family_ok (fits : IntervalWindow → Indicator → Prop) (st : StorePtr)
    (fm : gmap IntervalWindow ptr) (m : Mem) : Prop :=
  ∀ iw p, fm !! iw = Some p →
    ∃ l o, p = addr l ∧ objs m !! l = Some o ∧ fits iw o ∧ bound st p m.

Definition registry_ok (set : StandardIndicatorSet) (m : Mem) : Prop :=
  family_ok is_SMA (store set) (SMA set) m ∧
  family_ok is_EWMA (store set) (EWMA set) m ∧
  family_ok is_BOLL (store set) (BOLL set) m.

(** The registrations of [m] are, in allocation order, one for each allocated
    object, all with the store [st]. *)
Definition one_bind_each (st : StorePtr) (m : Mem) : Prop :=
  callbacks m = (λ l, (st, addr l)) <$> seq 0 (length (objs m)).

(** A call of one of the three get-or-create operations. *)
Inductive Op :=
  | OpSMA (iw : IntervalWindow)
  | OpEWMA (iw : IntervalWindow)
  | OpBOLL (iw : IntervalWindow) (bandWidth : float).

Definition call (set : StandardIndicatorSet) (op : Op)
    : M (ptr * StandardIndicatorSet) :=
  match op with
  | OpSMA iw => GetSMA set iw
  | OpEWMA iw => GetEWMA set iw
  | OpBOLL iw bw => GetBOLL set iw bw
  end.

(** A sequence of calls on the same registry, results dropped. *)
Definition calls (ops : list Op) (set : StandardIndicatorSet)
    : M StandardIndicatorSet :=
  for_range ops (λ set op, r ← call set op; mret r.2) set.

(** ** [ExchangeSession] *)

Module Session.
Section session.
Context `{types.External}.

(** [types.Subscription{Channel: ..., Symbol: ..., Options: ...}] *)
Record Subscription := mkSubscription {
  Channel : types.Channel;
  Symbol : string;
  Options : types.SubscribeOptions
}.

#[global] Instance Subscription_eq_dec : EqDecision Subscription.
Proof. solve_decision. Defined.

#[global] Instance Subscription_countable : Countable Subscription.
Proof.
  apply (inj_countable' (λ s, (Channel s, Symbol s, Options s))
                        (λ t, mkSubscription t.1.1 t.1.2 t.2)).
  by intros [].
Defined.

(** The map fields are finite maps: they stand for the maps made by
    [NewExchangeSession] (lines 139-149).  A nil map, as in a zero-value
    struct, on which a Go map write panics, has no counterpart here; the
    operations below are those of the source on sessions whose maps were
    made. *)
Record ExchangeSession := mkSession {
  Notifiability : types.Notifiability;
  Name : string;
  Account : types.Account;
  Stream : types.Stream;
  Subscriptions : gmap Subscription Subscription;
  Exchange : types.Exchange;
  markets : gmap string types.Market;
  startPrices : gmap string float;
  lastPrices : gmap string float;
  Trades : gmap string (list types.Trade);
  marketDataStores : gmap string ptr;
  standardIndicatorSets : gmap string ptr;
  loadedSymbols : gmap string unit
}.

(** The heap of sessions is the list of the sessions allocated so far; a
    [*ExchangeSession] is [nil] or the position of a session in it.
    Dereferencing the receiver: [None] is the nil-pointer panic. *)
Definition deref (h : list ExchangeSession) (session : ptr) : option ExchangeSession :=
  match session with
  | nil => None
  | addr l => h !! l
  end.

(** [NewExchangeSession(name, exchange)] *)
Definition NewExchangeSession (name : string) (exchange : types.Exchange)
    (h : list ExchangeSession) : ptr * list ExchangeSession :=
  let s := {|
    Notifiability := types.newNotifiability;
    Name := name;
    Exchange := exchange;
    Stream := types.NewStream exchange;
    Subscriptions := ∅;
    Account := types.newAccount;
    Trades := ∅;
    markets := ∅;
    startPrices := ∅;
    lastPrices := ∅;
    marketDataStores := ∅;
    standardIndicatorSets := ∅;
    loadedSymbols := ∅
  |} in
  (addr (length h), h ++ [s]).

(** [session.StandardIndicatorSet(symbol)] *)
Definition StandardIndicatorSet (session : ptr) (symbol : string)
    (h : list ExchangeSession) : option (ptr * bool) :=
  s ← deref h session;
  let '(set, ok) := comma_ok nil (standardIndicatorSets s) symbol in
  Some (set, ok).

(** [session.MarketDataStore(symbol)] *)
Definition MarketDataStore (session : ptr) (symbol : string)
    (h : list ExchangeSession) : option (ptr * bool) :=
  s ← deref h session;
  let '(s, ok) := comma_ok nil (marketDataStores s) symbol in
  Some (s, ok).

(** [session.StartPrice(symbol)] *)
Definition StartPrice (session : ptr) (symbol : string)
    (h : list ExchangeSession) : option (float * bool) :=
  s ← deref h session;
  let '(price, ok) := comma_ok 0%float (startPrices s) symbol in
  Some (price, ok).

(** [session.LastPrice(symbol)] *)
Definition LastPrice (session : ptr) (symbol : string)
    (h : list ExchangeSession) : option (float * bool) :=
  s ← deref h session;
  let '(price, ok) := comma_ok 0%float (lastPrices s) symbol in
  Some (price, ok).

(** [session.Market(symbol)] *)
Definition Market (session : ptr) (symbol : string)
    (h : list ExchangeSession) : option (types.Market * bool) :=
  s ← deref h session;
  let '(market, ok) := comma_ok types.zeroMarket (markets s) symbol in
  Some (market, ok).

Definition set_loadedSymbols (f : gmap string unit → gmap string unit)
    (s : ExchangeSession) : ExchangeSession :=
  mkSession (Notifiability s) (Name s) (Account s) (Stream s)
    (Subscriptions s) (Exchange s) (markets s) (startPrices s)
    (lastPrices s) (Trades s) (marketDataStores s)
    (standardIndicatorSets s) (f (loadedSymbols s)).

Definition set_Subscriptions
    (f : gmap Subscription Subscription → gmap Subscription Subscription)
    (s : ExchangeSession) : ExchangeSession :=
  mkSession (Notifiability s) (Name s) (Account s) (Stream s)
    (f (Subscriptions s)) (Exchange s) (markets s) (startPrices s)
    (lastPrices s) (Trades s) (marketDataStores s)
    (standardIndicatorSets s) (loadedSymbols s).

(** [session.Subscribe(channel, symbol, options)]: the two map writes go
    through the receiver, and the receiver is what is returned. *)
Definition Subscribe (session : ptr) (channel : types.Channel)
    (symbol : string) (options : types.SubscribeOptions)
    (h : list ExchangeSession) : option (ptr * list ExchangeSession) :=
  let sub := {| Channel := channel; Symbol := symbol; Options := options |} in
  match session with
  | nil => None
  | addr l =>
      s ← h !! l;
      let s := set_loadedSymbols <[symbol := tt]> s in
      let s := set_Subscriptions <[sub := sub]> s in
      Some (session, <[l := s]> h)
  end.

(** A chain [session.Subscribe(...).Subscribe(...)...]: each call is made
    on the pointer the previous one returned. *)
Fixpoint subscribe_chain (session : ptr) (subs : list Subscription)
    (h : list ExchangeSession) : option (ptr * list ExchangeSession) :=
  match subs with
  | [] => Some (session, h)
  | sub :: subs' =>
      r ← Subscribe session (Channel sub) (Symbol sub) (Options sub) h;
      subscribe_chain r.1 subs' r.2
  end.

(** Number of entries of a map stored under the key [k]. *)
Definition entries_at `{Countable K} {V} (k : K) (m : gmap K V) : nat :=
  length (filter (λ kv, kv.1 = k) (map_to_list m)).

(** The symbol is in the loaded-symbol table of the session. *)
Definition loaded (h : list ExchangeSession) (session : ptr) (symbol : string) : Prop :=
  ∃ s, deref h session = Some s ∧ is_Some (loadedSymbols s !! symbol).

(** All of a symbol's sub-objects are found. *)
Definition all_found (h : list ExchangeSession) (session : ptr) (symbol : string) : Prop :=
  (∃ v, StandardIndicatorSet session symbol h = Some (v, true)) ∧
  (∃ v, MarketDataStore session symbol h = Some (v, true)) ∧
  (∃ v, LastPrice session symbol h = Some (v, true)) ∧
  (∃ v, Market session symbol h = Some (v, true)).

(** None of a symbol's sub-objects is found. *)
Definition none_found (h : list ExchangeSession) (session : ptr) (symbol : string) : Prop :=
  (∃ v, StandardIndicatorSet session symbol h = Some (v, false)) ∧
  (∃ v, MarketDataStore session symbol h = Some (v, false)) ∧
  (∃ v, LastPrice session symbol h = Some (v, false)) ∧
  (∃ v, Market session symbol h = Some (v, false)).

(** The session value after the two writes of [Subscribe]. *)
Definition recorded (channel : types.Channel) (symbol : string)
    (options : types.SubscribeOptions) (s : ExchangeSession) : ExchangeSession :=
  set_Subscriptions <[mkSubscription channel symbol options :=
                        mkSubscription channel symbol options]>
    (set_loadedSymbols <[symbol := tt]> s).

(** The per-symbol maps of the session at [l] are all empty. *)
Definition no_symbol_data (h : list ExchangeSession) (l : nat) : Prop :=
  ∃ s, h !! l = Some s ∧
    markets s = ∅ ∧ startPrices s = ∅ ∧ lastPrices s = ∅ ∧
    marketDataStores s = ∅ ∧ standardIndicatorSets s = ∅.

(** The session value after the writes of a chain of [Subscribe] calls. *)
Definition recorded_all (subs : list Subscription) (s : ExchangeSession)
    : ExchangeSession :=
  foldl (λ s sub, recorded (Channel sub) (Symbol sub) (Options sub) s) s subs.

End session.
End Session.

(** ** Concrete registries and sessions *)

Definition empty_mem : Mem := mkMem [] [].

Definition demo_intervals : list Interval := ["1m"; "1h"]%string.

(** [NewStandardIndicatorSet("BTCUSDT", store)] with supported intervals
    1m and 1h, on a store at address 0 with nothing bound yet. *)
Definition demo_registry : StandardIndicatorSet * Mem :=
  NewStandardIndicatorSet demo_intervals "BTCUSDT" 0%nat empty_mem.

(** Collaborators for concrete sessions: channels are strings, options an
    (interval, depth) pair of strings; the rest carries no data. *)
Definition demo_external : types.External := {|
  types.Channel := string;
  types.SubscribeOptions := string * string;
  types.Market := unit;
  types.zeroMarket := tt;
  types.Trade := unit;
  types.Account := unit;
  types.newAccount := tt;
  types.Stream := unit;
  types.Exchange := unit;
  types.NewStream := λ _, tt;
  types.Notifiability := unit;
  types.newNotifiability := tt
|}.

(** [NewExchangeSession("binance", exchange)] on an empty heap. *)
Definition demo_session
    : ptr * list (@Session.ExchangeSession demo_external) :=
  Session.NewExchangeSession (H := demo_external) "binance" tt [].

(** A heap with one session that holds the sub-objects of BTCUSDT: its
    market configuration, last price, store and indicator registry. *)
Definition demo_running_sessions
    : list (@Session.ExchangeSession demo_external) :=
  [Session.mkSession (H := demo_external) tt "binance" tt tt ∅ tt
     {["BTCUSDT"%string := tt]} ∅ {["BTCUSDT"%string := 42%float]} ∅
     {["BTCUSDT"%string := addr 0]} {["BTCUSDT"%string := addr 0]} ∅].

(** * Part II: properties *)

(** ** The registry: equations, the pre-warming loop, the invariant *)

Lemma comma_ok_Some `{Countable K} {V} (zero : V) (m : gmap K V) k v :
  m !! k = Some v → comma_ok zero m k = (v, true).
Proof. unfold comma_ok. by intros ->. Qed.

Lemma comma_ok_None `{Countable K} {V} (zero : V) (m : gmap K V) k :
  m !! k = None → comma_ok zero m k = (zero, false).
Proof. unfold comma_ok. by intros ->. Qed.

Lemma index_insert (m : gmap IntervalWindow ptr) k p :
  index (<[k := p]> m) k = p.
Proof. unfold index, comma_ok. by rewrite lookup_insert_eq. Qed.

Ltac get_hit H := intros H; cbv beta delta [GetSMA GetEWMA GetBOLL];
  rewrite (comma_ok_Some _ _ _ _ H); reflexivity.
Ltac get_miss H := intros H; cbv beta delta [GetSMA GetEWMA GetBOLL];
  rewrite (comma_ok_None _ _ _ H); reflexivity.

Lemma GetSMA_hit set iw p m :
  SMA set !! iw = Some p → GetSMA set iw m = ((p, set), m).
Proof. get_hit H. Qed.

Lemma GetEWMA_hit set iw p m :
  EWMA set !! iw = Some p → GetEWMA set iw m = ((p, set), m).
Proof. get_hit H. Qed.

Lemma GetBOLL_hit set iw bw p m :
  BOLL set !! iw = Some p → GetBOLL set iw bw m = ((p, set), m).
Proof. get_hit H. Qed.

Lemma GetSMA_miss set iw m :
  SMA set !! iw = None →
  GetSMA set iw m =
    ((nil, set_SMA <[iw := addr (length (objs m))]> set),
     alloc_bound (SMAObj iw) (store set) m).
Proof. get_miss H. Qed.

Lemma GetEWMA_miss set iw m :
  EWMA set !! iw = None →
  GetEWMA set iw m =
    ((nil, set_EWMA <[iw := addr (length (objs m))]> set),
     alloc_bound (EWMAObj iw) (store set) m).
Proof. get_miss H. Qed.

Lemma GetBOLL_miss set iw bw m :
  BOLL set !! iw = None →
  GetBOLL set iw bw m =
    ((nil, set_BOLL <[iw := addr (length (objs m))]> set),
     alloc_bound (BOLLObj iw bw) (store set) m).
Proof. get_miss H. Qed.

Lemma prewarm_interval_eq st set i m :
  prewarm_interval st set i m =
    let n := length (objs m) in
    (mkSet (Symbol set)
       (<[mkIW i 99 := addr (n + 4)]>
          (<[mkIW i 25 := addr (n + 2)]> (<[mkIW i 7 := addr (n + 0)]> (SMA set))))
       (<[mkIW i 99 := addr (n + 5)]>
          (<[mkIW i 25 := addr (n + 3)]> (<[mkIW i 7 := addr (n + 1)]> (EWMA set))))
       (<[mkIW i 21 := addr (n + 6)]> (BOLL set))
       (store set),
     mkMem (objs m ++ prewarm_objs i) (callbacks m ++ prewarm_binds st n)).
Proof.
  destruct m as [os cs]. destruct set as [sy sma ewma boll sto].
  cbv [prewarm_interval prewarm_window for_range mbind mret M_bind M_ret new
       Bind set_SMA set_EWMA set_BOLL SMA EWMA BOLL Symbol store objs callbacks
       prewarm_objs prewarm_binds].
  rewrite !index_insert. cbn [fmap list_fmap seq].
  rewrite !length_app. cbn [length].
  rewrite <- !app_assoc. cbn [app].
  rewrite <- !Nat.add_assoc, Nat.add_0_r. reflexivity.
Qed.

#[global] Instance mem_extends_refl : Reflexive mem_extends.
Proof. intros m. by split. Qed.

#[global] Instance mem_extends_trans : Transitive mem_extends.
Proof. intros m1 m2 m3 [??] [??]. split; by etrans. Qed.

Lemma mem_extends_length m m' :
  mem_extends m m' → (length (objs m) ≤ length (objs m'))%nat.
Proof. intros [H _]. by apply prefix_length. Qed.

Lemma objs_extends m m' l o :
  mem_extends m m' → objs m !! l = Some o → objs m' !! l = Some o.
Proof. intros [Ho _] Hl. by eapply prefix_lookup_Some. Qed.

Lemma bound_extends m m' st p :
  mem_extends m m' → bound st p m → bound st p m'.
Proof.
  intros [_ [k Hc]] Hb. unfold bound in *. rewrite Hc.
  apply elem_of_app. by left.
Qed.

Lemma fresh_in_mono mk st m0 m m' m1 iw p :
  mem_extends m0 m → mem_extends m' m1 →
  fresh_in mk st m m' iw p → fresh_in mk st m0 m1 iw p.
Proof.
  intros H0 [Ho Hc] (l & -> & Hl & Hobj & Hb).
  exists l. split; [done|]. split.
  { apply mem_extends_length in H0. lia. }
  split.
  - by eapply prefix_lookup_Some.
  - unfold bound in *. destruct Hc as [k ->]. set_solver.
Qed.

Lemma prewarm_interval_extends st set i m :
  mem_extends m (prewarm_interval st set i m).2.
Proof.
  rewrite prewarm_interval_eq. split; simpl; by apply prefix_app_r.
Qed.

Lemma lookup_prewarm_objs (os : list Indicator) i (k : nat) o :
  prewarm_objs i !! k = Some o → (os ++ prewarm_objs i) !! (length os + k)%nat = Some o.
Proof. intros H. by rewrite lookup_app_r, Nat.add_comm, Nat.add_sub by lia. Qed.

Lemma elem_of_prewarm_binds st n cs (k : nat) :
  (k < 7)%nat → (st, addr (n + k)) ∈ cs ++ prewarm_binds st n.
Proof.
  intros Hk. apply elem_of_app. right. unfold prewarm_binds.
  apply list_elem_of_fmap. exists k. split; [done|].
  apply elem_of_seq. lia.
Qed.

Lemma elem_of_windows (w : Z) :
  w ∈ [7; 25; 99] ↔ w = 7 ∨ w = 25 ∨ w = 99.
Proof.
  rewrite !elem_of_cons, elem_of_nil. tauto.
Qed.

(** The [k]-th object allocated by an iteration is the fresh instance. *)
Ltac fresh_at k :=
  eexists; split; [by simplify_map_eq|];
  match goal with |- fresh_in _ _ ?m _ _ _ =>
    exists (length (objs m) + k)%nat;
    repeat split; [lia|by apply lookup_prewarm_objs|];
    apply elem_of_prewarm_binds; lia
  end.

(** What one iteration does to each of the three maps. *)
Lemma prewarm_interval_SMA st set i m iw :
  (Interval_of iw = i → Window iw ∈ [7; 25; 99] →
     ∃ p, SMA (prewarm_interval st set i m).1 !! iw = Some p ∧
          fresh_in SMAObj st m (prewarm_interval st set i m).2 iw p) ∧
  (¬ (Interval_of iw = i ∧ Window iw ∈ [7; 25; 99]) →
     SMA (prewarm_interval st set i m).1 !! iw = SMA set !! iw).
Proof.
  rewrite prewarm_interval_eq. cbn [fst snd SMA]. split.
  - destruct iw as [i' w]. cbn. intros -> [-> | [-> | ->]]%elem_of_windows.
    + fresh_at 0%nat.
    + fresh_at 2%nat.
    + fresh_at 4%nat.
  - intros Hn. rewrite !lookup_insert_ne; [done|..];
      intros <-; apply Hn; cbn; rewrite elem_of_windows; tauto.
Qed.

Lemma prewarm_interval_EWMA st set i m iw :
  (Interval_of iw = i → Window iw ∈ [7; 25; 99] →
     ∃ p, EWMA (prewarm_interval st set i m).1 !! iw = Some p ∧
          fresh_in EWMAObj st m (prewarm_interval st set i m).2 iw p) ∧
  (¬ (Interval_of iw = i ∧ Window iw ∈ [7; 25; 99]) →
     EWMA (prewarm_interval st set i m).1 !! iw = EWMA set !! iw).
Proof.
  rewrite prewarm_interval_eq. cbn [fst snd EWMA]. split.
  - destruct iw as [i' w]. cbn. intros -> [-> | [-> | ->]]%elem_of_windows.
    + fresh_at 1%nat.
    + fresh_at 3%nat.
    + fresh_at 5%nat.
  - intros Hn. rewrite !lookup_insert_ne; [done|..];
      intros <-; apply Hn; cbn; rewrite elem_of_windows; tauto.
Qed.

Lemma prewarm_interval_BOLL st set i m iw :
  (Interval_of iw = i → Window iw ∈ [21] →
     ∃ p, BOLL (prewarm_interval st set i m).1 !! iw = Some p ∧
          fresh_in BOLLObj2 st m (prewarm_interval st set i m).2 iw p) ∧
  (¬ (Interval_of iw = i ∧ Window iw ∈ [21]) →
     BOLL (prewarm_interval st set i m).1 !! iw = BOLL set !! iw).
Proof.
  rewrite prewarm_interval_eq. cbn [fst snd BOLL]. split.
  - destruct iw as [i' w]. cbn. intros -> ->%list_elem_of_singleton.
    fresh_at 6%nat.
  - intros Hn. rewrite !lookup_insert_ne; [done|..];
      intros <-; apply Hn; cbn; rewrite list_elem_of_singleton; tauto.
Qed.

Lemma for_range_cons {A S} (x : A) xs (body : S → A → M S) s m :
  for_range (x :: xs) body s m =
    for_range xs body (body s x m).1 (body s x m).2.
Proof. cbn. unfold mbind, M_bind. by destruct (body s x m). Qed.

Lemma prewarm_loop_extends st ivs set m :
  mem_extends m (for_range ivs (prewarm_interval st) set m).2.
Proof.
  revert set m. induction ivs as [|i ivs IH]; intros set m; [done|].
  rewrite for_range_cons. etrans; [apply (prewarm_interval_extends st set i)|].
  apply IH.
Qed.

Section family.
(** One proof for the three maps: [proj] selects the map, [mk] is the
    object built for a key and [ws] the window sizes pre-warmed. *)
Variable st : StorePtr.
Variable proj : StandardIndicatorSet → gmap IntervalWindow ptr.
Variable mk : IntervalWindow → Indicator.
Variable ws : list Z.
Hypothesis step : ∀ set i m iw,
  (Interval_of iw = i → Window iw ∈ ws →
     ∃ p, proj (prewarm_interval st set i m).1 !! iw = Some p ∧
          fresh_in mk st m (prewarm_interval st set i m).2 iw p) ∧
  (¬ (Interval_of iw = i ∧ Window iw ∈ ws) →
     proj (prewarm_interval st set i m).1 !! iw = proj set !! iw).
Lemma prewarm_loop_family ivs : ∀ set m iw,
  let r := for_range ivs (prewarm_interval st) set m in
  (Interval_of iw ∈ ivs → Window iw ∈ ws →
     ∃ p, proj r.1 !! iw = Some p ∧ fresh_in mk st m r.2 iw p) ∧
  (¬ (Interval_of iw ∈ ivs ∧ Window iw ∈ ws) →
     proj r.1 !! iw = proj set !! iw).
Proof.
  induction ivs as [|i ivs IH]; intros set m iw r.
  { split; [by intros ?%elem_of_nil|done]. }
  subst r. rewrite for_range_cons.
  set (s1 := (prewarm_interval st set i m).1).
  set (m1 := (prewarm_interval st set i m).2).
  destruct (IH s1 m1 iw) as [IHin IHout].
  destruct (step set i m iw) as [Sin Sout]. fold s1 m1 in Sin, Sout.
  assert (mem_extends m m1) as Hmm1 by apply prewarm_interval_extends.
  assert (mem_extends m1 (for_range ivs (prewarm_interval st) s1 m1).2)
    as Hm1r by apply prewarm_loop_extends.
  split.
  - intros Hi Hw.
    destruct (decide (Interval_of iw ∈ ivs)) as [Hin|Hnin].
    + destruct (IHin Hin Hw) as (p & Hp & Hf). exists p. split; [done|].
      by apply (fresh_in_mono _ _ m m1 _ _ _ _ Hmm1 (reflexivity _)).
    + apply elem_of_cons in Hi as [Hi|Hi]; [|done].
      destruct (Sin Hi Hw) as (p & Hp & Hf). exists p. split.
      * rewrite IHout; [done|]. by intros [? _].
      * by apply (fresh_in_mono _ _ m m m1 _ _ _ (reflexivity _) Hm1r).
  - intros Hn. rewrite IHout, Sout; [done|..].
    + intros [? ?]. apply Hn. rewrite elem_of_cons. tauto.
    + intros [? ?]. apply Hn. rewrite elem_of_cons. tauto.
Qed.
End family.

Lemma bind_count_app st (m : Mem) os cs' :
  bind_count st (mkMem os (callbacks m ++ cs')) =
    (bind_count st m + length (filter (λ c, c.1 = st) cs'))%nat.
Proof. unfold bind_count. cbn. by rewrite list.filter_app, length_app. Qed.

Lemma prewarm_binds_count st n :
  length (filter (λ c : StorePtr * ptr, c.1 = st) (prewarm_binds st n)) = 7%nat.
Proof.
  unfold prewarm_binds. cbn [seq fmap list_fmap].
  rewrite !filter_cons_True by done. done.
Qed.

Lemma prewarm_binds_other st st' n :
  st' ≠ st →
  filter (λ c : StorePtr * ptr, c.1 = st') (prewarm_binds st n) = [].
Proof.
  intros Hne. unfold prewarm_binds. cbn [seq fmap list_fmap].
  rewrite !filter_cons_False by (cbn; congruence). done.
Qed.

(** What the loop leaves alone, and how much it allocates and binds. *)
Lemma prewarm_loop_frame st ivs : ∀ set m,
  let r := for_range ivs (prewarm_interval st) set m in
  Symbol r.1 = Symbol set ∧ store r.1 = store set ∧
  length (objs r.2) = (length (objs m) + 7 * length ivs)%nat ∧
  bind_count st r.2 = (bind_count st m + 7 * length ivs)%nat ∧
  (∀ st', st' ≠ st → bind_count st' r.2 = bind_count st' m).
Proof.
  induction ivs as [|i ivs IH]; intros set m r.
  { subst r. cbn. repeat split; lia. }
  subst r. rewrite for_range_cons.
  destruct (IH (prewarm_interval st set i m).1 (prewarm_interval st set i m).2)
    as (HS & Hst & Hlen & Hbc & Hother).
  rewrite HS, Hst, Hlen, Hbc. clear HS Hst Hlen Hbc.
  split; [by rewrite prewarm_interval_eq|].
  split; [by rewrite prewarm_interval_eq|].
  split.
  { rewrite prewarm_interval_eq. cbn [snd objs]. rewrite length_app.
    change (length (prewarm_objs i)) with 7%nat. cbn [length]. lia. }
  split.
  { rewrite prewarm_interval_eq. cbn [snd].
    rewrite bind_count_app, prewarm_binds_count. cbn [length]. lia. }
  intros st' Hne. rewrite Hother by done.
  rewrite prewarm_interval_eq. cbn [snd].
  rewrite bind_count_app, prewarm_binds_other by done.
  cbn [length]. lia.
Qed.

Lemma elem_of_keys_of ivs ws iw :
  iw ∈ keys_of ivs ws ↔ Interval_of iw ∈ ivs ∧ Window iw ∈ ws.
Proof.
  unfold keys_of. rewrite list_elem_of_bind. split.
  - intros (i & Hiw & Hi). apply list_elem_of_fmap in Hiw as (w & -> & Hw).
    by cbn.
  - intros [Hi Hw]. exists (Interval_of iw). split; [|done].
    apply list_elem_of_fmap. exists (Window iw). by destruct iw.
Qed.

Lemma length_keys_of ivs ws :
  length (keys_of ivs ws) = (length ivs * length ws)%nat.
Proof.
  unfold keys_of. induction ivs as [|i ivs IH]; [done|].
  cbn. rewrite length_app, length_fmap. f_equal. exact IH.
Qed.

Lemma NoDup_keys_of ivs ws :
  NoDup ivs → NoDup ws → NoDup (keys_of ivs ws).
Proof.
  intros Hi Hw. unfold keys_of. apply NoDup_bind; [| |done].
  - intros i1 i2 iw _ _ (w1 & -> & _)%list_elem_of_fmap
      (w2 & Heq & _)%list_elem_of_fmap. congruence.
  - intros i _. apply NoDup_fmap_2; [|done]. intros w1 w2. congruence.
Qed.

Lemma size_keys (fm : gmap IntervalWindow ptr) ivs ws :
  NoDup ivs → NoDup ws →
  (∀ iw, is_Some (fm !! iw) ↔ Interval_of iw ∈ ivs ∧ Window iw ∈ ws) →
  size fm = (length ivs * length ws)%nat.
Proof.
  intros Hi Hw Hdom.
  rewrite <- length_keys_of, <- (size_list_to_set (C := gset IntervalWindow))
    by by apply NoDup_keys_of.
  rewrite <- size_dom. f_equal. apply set_eq. intros iw.
  by rewrite elem_of_dom, elem_of_list_to_set, elem_of_keys_of.
Qed.

Lemma New_SMA ivs symbol st m0 iw :
  let r := NewStandardIndicatorSet ivs symbol st m0 in
  (Interval_of iw ∈ ivs → Window iw ∈ [7; 25; 99] →
     ∃ p, SMA r.1 !! iw = Some p ∧ fresh_in SMAObj st m0 r.2 iw p) ∧
  (¬ (Interval_of iw ∈ ivs ∧ Window iw ∈ [7; 25; 99]) → SMA r.1 !! iw = None).
Proof.
  intros r.
  destruct (prewarm_loop_family st SMA SMAObj [7; 25; 99]
              (prewarm_interval_SMA st) ivs (mkSet symbol ∅ ∅ ∅ st) m0 iw)
    as [Hin Hout].
  split; [exact Hin|]. intros Hn. subst r. unfold NewStandardIndicatorSet.
  rewrite (Hout Hn). apply lookup_empty.
Qed.

Lemma New_EWMA ivs symbol st m0 iw :
  let r := NewStandardIndicatorSet ivs symbol st m0 in
  (Interval_of iw ∈ ivs → Window iw ∈ [7; 25; 99] →
     ∃ p, EWMA r.1 !! iw = Some p ∧ fresh_in EWMAObj st m0 r.2 iw p) ∧
  (¬ (Interval_of iw ∈ ivs ∧ Window iw ∈ [7; 25; 99]) → EWMA r.1 !! iw = None).
Proof.
  intros r.
  destruct (prewarm_loop_family st EWMA EWMAObj [7; 25; 99]
              (prewarm_interval_EWMA st) ivs (mkSet symbol ∅ ∅ ∅ st) m0 iw)
    as [Hin Hout].
  split; [exact Hin|]. intros Hn. subst r. unfold NewStandardIndicatorSet.
  rewrite (Hout Hn). apply lookup_empty.
Qed.

Lemma New_BOLL ivs symbol st m0 iw :
  let r := NewStandardIndicatorSet ivs symbol st m0 in
  (Interval_of iw ∈ ivs → Window iw ∈ [21] →
     ∃ p, BOLL r.1 !! iw = Some p ∧ fresh_in BOLLObj2 st m0 r.2 iw p) ∧
  (¬ (Interval_of iw ∈ ivs ∧ Window iw ∈ [21]) → BOLL r.1 !! iw = None).
Proof.
  intros r.
  destruct (prewarm_loop_family st BOLL BOLLObj2 [21]
              (prewarm_interval_BOLL st) ivs (mkSet symbol ∅ ∅ ∅ st) m0 iw)
    as [Hin Hout].
  split; [exact Hin|]. intros Hn. subst r. unfold NewStandardIndicatorSet.
  rewrite (Hout Hn). apply lookup_empty.
Qed.

(** From the two halves of a loop lemma: the keys of the map, and what every
    entry points to. *)
Lemma keys_and_entries (fm : gmap IntervalWindow ptr) (C : IntervalWindow → Prop)
    (F : IntervalWindow → ptr → Prop) `{∀ iw, Decision (C iw)} :
  (∀ iw, (C iw → ∃ p, fm !! iw = Some p ∧ F iw p) ∧ (¬ C iw → fm !! iw = None)) →
  (∀ iw, is_Some (fm !! iw) ↔ C iw) ∧ (∀ iw p, fm !! iw = Some p → F iw p).
Proof.
  intros Hfm. split.
  - intros iw. destruct (Hfm iw) as [Hin Hout]. split.
    + intros [p Hp]. destruct (decide (C iw)) as [|Hn]; [done|].
      rewrite (Hout Hn) in Hp. done.
    + intros (p & Hp & _)%Hin. by exists p.
  - intros iw p Hp. destruct (Hfm iw) as [Hin Hout].
    destruct (decide (C iw)) as [Hc|Hn].
    + destruct (Hin Hc) as (q & Hq & HF). congruence.
    + rewrite (Hout Hn) in Hp. done.
Qed.

Lemma New_SMA_entries ivs symbol st m0 :
  let r := NewStandardIndicatorSet ivs symbol st m0 in
  (∀ iw, is_Some (SMA r.1 !! iw) ↔ Interval_of iw ∈ ivs ∧ Window iw ∈ [7; 25; 99]) ∧
  (∀ iw p, SMA r.1 !! iw = Some p → fresh_in SMAObj st m0 r.2 iw p).
Proof.
  intros r. apply keys_and_entries; [apply _|]. intros iw.
  destruct (New_SMA ivs symbol st m0 iw) as [Hin Hout]. split; [|done].
  intros [??]. by apply Hin.
Qed.

Lemma New_EWMA_entries ivs symbol st m0 :
  let r := NewStandardIndicatorSet ivs symbol st m0 in
  (∀ iw, is_Some (EWMA r.1 !! iw) ↔ Interval_of iw ∈ ivs ∧ Window iw ∈ [7; 25; 99]) ∧
  (∀ iw p, EWMA r.1 !! iw = Some p → fresh_in EWMAObj st m0 r.2 iw p).
Proof.
  intros r. apply keys_and_entries; [apply _|]. intros iw.
  destruct (New_EWMA ivs symbol st m0 iw) as [Hin Hout]. split; [|done].
  intros [??]. by apply Hin.
Qed.

Lemma New_BOLL_entries ivs symbol st m0 :
  let r := NewStandardIndicatorSet ivs symbol st m0 in
  (∀ iw, is_Some (BOLL r.1 !! iw) ↔ Interval_of iw ∈ ivs ∧ Window iw ∈ [21]) ∧
  (∀ iw p, BOLL r.1 !! iw = Some p → fresh_in BOLLObj2 st m0 r.2 iw p).
Proof.
  intros r. apply keys_and_entries; [apply _|]. intros iw.
  destruct (New_BOLL ivs symbol st m0 iw) as [Hin Hout]. split; [|done].
  intros [??]. by apply Hin.
Qed.

Lemma NoDup_windows : NoDup [7; 25; 99].
Proof. apply (bool_decide_unpack _). by vm_compute. Qed.

Lemma NoDup_window21 : NoDup [21].
Proof. apply (bool_decide_unpack _). by vm_compute. Qed.

Lemma mem_extends_alloc_bound o st m : mem_extends m (alloc_bound o st m).
Proof. split; cbn; by apply prefix_app_r. Qed.

Lemma family_ok_extends fits st fm m m' :
  mem_extends m m' → family_ok fits st fm m → family_ok fits st fm m'.
Proof.
  intros [Ho [k Hc]] Hok iw p Hp.
  destruct (Hok iw p Hp) as (l & o & -> & Hl & Hfit & Hb).
  exists l, o. repeat split; [by eapply prefix_lookup_Some|done|].
  unfold bound in *. rewrite Hc. set_solver.
Qed.

Lemma family_ok_insert fits st fm m iw o :
  fits iw o → family_ok fits st fm m →
  family_ok fits st (<[iw := addr (length (objs m))]> fm) (alloc_bound o st m).
Proof.
  intros Hfit Hok iw' p Hp.
  destruct (decide (iw = iw')) as [<-|Hne].
  - rewrite lookup_insert_eq in Hp. injection Hp as <-.
    exists (length (objs m)), o. repeat split; [|done|].
    + cbn. by rewrite lookup_app_r, Nat.sub_diag.
    + unfold bound. cbn. set_solver.
  - rewrite lookup_insert_ne in Hp by done.
    eapply (family_ok_extends fits st fm m);
      [apply mem_extends_alloc_bound|exact Hok|exact Hp].
Qed.

Lemma registry_ok_New ivs symbol st m0 :
  registry_ok (NewStandardIndicatorSet ivs symbol st m0).1
              (NewStandardIndicatorSet ivs symbol st m0).2.
Proof.
  destruct (prewarm_loop_frame st ivs (mkSet symbol ∅ ∅ ∅ st) m0)
    as (_ & Hst & _).
  unfold registry_ok, NewStandardIndicatorSet. rewrite Hst. cbn [store].
  split; [|split]; intros iw p Hp.
  - destruct (proj2 (New_SMA_entries ivs symbol st m0) iw p Hp)
      as (l & -> & _ & Ho & Hb). by exists l, (SMAObj iw).
  - destruct (proj2 (New_EWMA_entries ivs symbol st m0) iw p Hp)
      as (l & -> & _ & Ho & Hb). by exists l, (EWMAObj iw).
  - destruct (proj2 (New_BOLL_entries ivs symbol st m0) iw p Hp)
      as (l & -> & _ & Ho & Hb). exists l, (BOLLObj2 iw).
    repeat split; [done| |done]. by eexists.
Qed.

(** Each call keeps the invariant, the store, and every existing entry. *)
Lemma call_spec set op m :
  registry_ok set m →
  let r := call set op m in
  registry_ok r.1.2 r.2 ∧ store r.1.2 = store set ∧ mem_extends m r.2 ∧
  (∀ iw p, SMA set !! iw = Some p → SMA r.1.2 !! iw = Some p) ∧
  (∀ iw p, EWMA set !! iw = Some p → EWMA r.1.2 !! iw = Some p) ∧
  (∀ iw p, BOLL set !! iw = Some p → BOLL r.1.2 !! iw = Some p).
Proof.
  intros (Hs & He & Hb) r. subst r. destruct op as [iw|iw|iw bw]; cbn [call].
  - destruct (SMA set !! iw) as [p|] eqn:Hl.
    + rewrite (GetSMA_hit _ _ p) by done. by repeat split.
    + rewrite GetSMA_miss by done. cbn [fst snd set_SMA SMA EWMA BOLL store].
      pose proof (mem_extends_alloc_bound (SMAObj iw) (store set) m) as Hx.
      repeat split; try done.
      * by apply family_ok_insert.
      * by eapply family_ok_extends.
      * by eapply family_ok_extends.
      * apply Hx.
      * apply Hx.
      * intros iw' p Hp. rewrite lookup_insert_ne; [done|]. congruence.
  - destruct (EWMA set !! iw) as [p|] eqn:Hl.
    + rewrite (GetEWMA_hit _ _ p) by done. by repeat split.
    + rewrite GetEWMA_miss by done. cbn [fst snd set_EWMA SMA EWMA BOLL store].
      pose proof (mem_extends_alloc_bound (EWMAObj iw) (store set) m) as Hx.
      repeat split; try done.
      * by eapply family_ok_extends.
      * by apply family_ok_insert.
      * by eapply family_ok_extends.
      * apply Hx.
      * apply Hx.
      * intros iw' p Hp. rewrite lookup_insert_ne; [done|]. congruence.
  - destruct (BOLL set !! iw) as [p|] eqn:Hl.
    + rewrite (GetBOLL_hit _ _ _ p) by done. by repeat split.
    + rewrite GetBOLL_miss by done. cbn [fst snd set_BOLL SMA EWMA BOLL store].
      pose proof (mem_extends_alloc_bound (BOLLObj iw bw) (store set) m) as Hx.
      repeat split; try done.
      * by eapply family_ok_extends.
      * by eapply family_ok_extends.
      * apply family_ok_insert; [by eexists|done].
      * apply Hx.
      * apply Hx.
      * intros iw' p Hp. rewrite lookup_insert_ne; [done|]. congruence.
Qed.

Lemma calls_cons op ops set m :
  calls (op :: ops) set m = calls ops (call set op m).1.2 (call set op m).2.
Proof.
  unfold calls. rewrite for_range_cons. unfold mbind, M_bind, mret, M_ret.
  by destruct (call set op m) as [[??]?].
Qed.

Lemma calls_spec ops : ∀ set m,
  registry_ok set m →
  let r := calls ops set m in
  registry_ok r.1 r.2 ∧ store r.1 = store set ∧ mem_extends m r.2 ∧
  (∀ iw p, SMA set !! iw = Some p → SMA r.1 !! iw = Some p) ∧
  (∀ iw p, EWMA set !! iw = Some p → EWMA r.1 !! iw = Some p) ∧
  (∀ iw p, BOLL set !! iw = Some p → BOLL r.1 !! iw = Some p).
Proof.
  induction ops as [|op ops IH]; intros set m Hok r; subst r.
  { cbn. split; [done|]. split; [done|]. split; [reflexivity|]. by repeat split. }
  rewrite calls_cons.
  destruct (call_spec set op m Hok) as (Hok1 & Hst1 & Hx1 & Hs1 & He1 & Hb1).
  destruct (IH _ _ Hok1) as (Hok2 & Hst2 & Hx2 & Hs2 & He2 & Hb2).
  split; [done|]. split; [congruence|]. split; [by etrans|].
  repeat split; eauto.
Qed.

Lemma GetSMA_settles set m iw :
  registry_ok set m →
  let r := GetSMA set iw m in
  ∃ l, SMA r.1.2 !! iw = Some (addr l) ∧
       objs r.2 !! l = Some (SMAObj iw) ∧
       bound (store r.1.2) (addr l) r.2 ∧
       ∀ ops, let r' := calls ops r.1.2 r.2 in
              GetSMA r'.1 iw r'.2 = ((addr l, r'.1), r'.2).
Proof.
  intros Hok r. subst r.
  destruct (call_spec set (OpSMA iw) m Hok) as ((Hs & _) & _ & _ & Hkeep & _).
  pose proof (call_spec set (OpSMA iw) m Hok) as (Hok1 & _).
  cbn [call] in *.
  assert (is_Some (SMA (GetSMA set iw m).1.2 !! iw)) as [p Hp].
  { destruct (SMA set !! iw) as [p|] eqn:Hl; [by eexists; eapply Hkeep|].
    rewrite GetSMA_miss by done. cbn. rewrite lookup_insert_eq. by eexists. }
  destruct (Hs iw p Hp) as (l & o & -> & Ho & -> & Hb).
  exists l. split; [done|]. split; [done|]. split; [done|].
  intros ops.
  destruct (calls_spec ops _ _ Hok1) as (_ & _ & _ & Hk & _).
  by apply GetSMA_hit, Hk.
Qed.

Lemma GetEWMA_settles set m iw :
  registry_ok set m →
  let r := GetEWMA set iw m in
  ∃ l, EWMA r.1.2 !! iw = Some (addr l) ∧
       objs r.2 !! l = Some (EWMAObj iw) ∧
       bound (store r.1.2) (addr l) r.2 ∧
       ∀ ops, let r' := calls ops r.1.2 r.2 in
              GetEWMA r'.1 iw r'.2 = ((addr l, r'.1), r'.2).
Proof.
  intros Hok r. subst r.
  destruct (call_spec set (OpEWMA iw) m Hok)
    as ((_ & He & _) & _ & _ & _ & Hkeep & _).
  pose proof (call_spec set (OpEWMA iw) m Hok) as (Hok1 & _).
  cbn [call] in *.
  assert (is_Some (EWMA (GetEWMA set iw m).1.2 !! iw)) as [p Hp].
  { destruct (EWMA set !! iw) as [p|] eqn:Hl; [by eexists; eapply Hkeep|].
    rewrite GetEWMA_miss by done. cbn. rewrite lookup_insert_eq. by eexists. }
  destruct (He iw p Hp) as (l & o & -> & Ho & -> & Hb).
  exists l. split; [done|]. split; [done|]. split; [done|].
  intros ops.
  destruct (calls_spec ops _ _ Hok1) as (_ & _ & _ & _ & Hk & _).
  by apply GetEWMA_hit, Hk.
Qed.

Lemma GetBOLL_settles set m iw bw :
  registry_ok set m →
  let r := GetBOLL set iw bw m in
  ∃ l K, BOLL r.1.2 !! iw = Some (addr l) ∧
       objs r.2 !! l = Some (BOLLObj iw K) ∧
       bound (store r.1.2) (addr l) r.2 ∧
       ∀ ops bw', let r' := calls ops r.1.2 r.2 in
                  GetBOLL r'.1 iw bw' r'.2 = ((addr l, r'.1), r'.2).
Proof.
  intros Hok r. subst r.
  destruct (call_spec set (OpBOLL iw bw) m Hok)
    as ((_ & _ & Hb) & _ & _ & _ & _ & Hkeep).
  pose proof (call_spec set (OpBOLL iw bw) m Hok) as (Hok1 & _).
  cbn [call] in *.
  assert (is_Some (BOLL (GetBOLL set iw bw m).1.2 !! iw)) as [p Hp].
  { destruct (BOLL set !! iw) as [p|] eqn:Hl; [by eexists; eapply Hkeep|].
    rewrite GetBOLL_miss by done. cbn. rewrite lookup_insert_eq. by eexists. }
  destruct (Hb iw p Hp) as (l & o & -> & Ho & [K ->] & Hbd).
  exists l, K. split; [done|]. split; [done|]. split; [done|].
  intros ops bw'.
  destruct (calls_spec ops _ _ Hok1) as (_ & _ & _ & _ & _ & Hk).
  by apply GetBOLL_hit, Hk.
Qed.

(** ** The registry: the claims *)

(** C1 (the code departs from it).  On a cache miss each of [GetSMA],
    [GetEWMA] and [GetBOLL] builds the instance, binds it and stores it in
    the map, but returns nil: in the pre-warmed registry for 1m and 1h, a
    request for the absent key (1m, 14), or (1m, 20) for the band family,
    returns nil while the map afterwards holds the new instance at address
    14. *)
Theorem get_or_create_miss_returns_nil :
  let set := demo_registry.1 in
  let m := demo_registry.2 in
  let k := mkIW "1m" 14 in
  let kb := mkIW "1m" 20 in
  SMA set !! k = None ∧
  (GetSMA set k m).1.1 = nil ∧
  SMA (GetSMA set k m).1.2 !! k = Some (addr 14) ∧
  EWMA set !! k = None ∧
  (GetEWMA set k m).1.1 = nil ∧
  EWMA (GetEWMA set k m).1.2 !! k = Some (addr 14) ∧
  BOLL set !! kb = None ∧
  (GetBOLL set kb 3%float m).1.1 = nil ∧
  BOLL (GetBOLL set kb 3%float m).1.2 !! kb = Some (addr 14) ∧
  objs (GetBOLL set kb 3%float m).2 !! 14%nat = Some (BOLLObj kb 3%float).
Proof. vm_compute. repeat split. Qed.

(** C2 (the code departs from it).  Two calls in succession with a key that
    is absent do not return the same instance: the first returns nil, the
    second the instance the first call stored. *)
Theorem get_or_create_twice_differs :
  let set := demo_registry.1 in
  let m := demo_registry.2 in
  let k := mkIW "1m" 14 in
  let first := GetSMA set k m in
  let second := GetSMA first.1.2 k first.2 in
  first.1.1 = nil ∧ second.1.1 = addr 14 ∧ first.1.1 ≠ second.1.1 ∧
  (let first := GetEWMA set k m in
   let second := GetEWMA first.1.2 k first.2 in
   first.1.1 = nil ∧ second.1.1 = addr 14) ∧
  (let first := GetBOLL set k 2%float m in
   let second := GetBOLL first.1.2 k 2%float first.2 in
   first.1.1 = nil ∧ second.1.1 = addr 14).
Proof. vm_compute. repeat split. discriminate. Qed.

(** C3.  [NewStandardIndicatorSet] keeps the symbol and the store and
    pre-warms exactly this: the keys of the SMA map and of the EWMA map are
    the pairs (interval, window) with a supported interval and a window in
    7, 25, 99; the keys of the BOLL map are the pairs (interval, 21) with a
    supported interval; every entry is the address of an object allocated by
    the constructor, built for the entry's key (the band objects with K =
    2.0) and bound to the store.  With the supported intervals pairwise
    distinct, the maps have 3n, 3n and n entries for n intervals, 7n objects
    were allocated and 7n binds made on the store; for n = 2 the maps have 6,
    6 and 2 entries. *)
Theorem NewStandardIndicatorSet_prewarms ivs symbol st m0 :
  NoDup ivs →
  let r := NewStandardIndicatorSet ivs symbol st m0 in
  Symbol r.1 = symbol ∧ store r.1 = st ∧
  (∀ iw, is_Some (SMA r.1 !! iw) ↔
         Interval_of iw ∈ ivs ∧ Window iw ∈ [7; 25; 99]) ∧
  (∀ iw, is_Some (EWMA r.1 !! iw) ↔
         Interval_of iw ∈ ivs ∧ Window iw ∈ [7; 25; 99]) ∧
  (∀ iw, is_Some (BOLL r.1 !! iw) ↔ Interval_of iw ∈ ivs ∧ Window iw = 21) ∧
  (∀ iw p, SMA r.1 !! iw = Some p → fresh_in SMAObj st m0 r.2 iw p) ∧
  (∀ iw p, EWMA r.1 !! iw = Some p → fresh_in EWMAObj st m0 r.2 iw p) ∧
  (∀ iw p, BOLL r.1 !! iw = Some p →
           fresh_in (λ iw, BOLLObj iw 2%float) st m0 r.2 iw p) ∧
  size (SMA r.1) = (3 * length ivs)%nat ∧
  size (EWMA r.1) = (3 * length ivs)%nat ∧
  size (BOLL r.1) = length ivs ∧
  length (objs r.2) = (length (objs m0) + 7 * length ivs)%nat ∧
  bind_count st r.2 = (bind_count st m0 + 7 * length ivs)%nat ∧
  (length ivs = 2%nat →
   size (SMA r.1) = 6%nat ∧ size (EWMA r.1) = 6%nat ∧ size (BOLL r.1) = 2%nat).
Proof.
  intros Hnd r.
  destruct (prewarm_loop_frame st ivs (mkSet symbol ∅ ∅ ∅ st) m0)
    as (Hsym & Hst & Hlen & Hbc & _).
  destruct (New_SMA_entries ivs symbol st m0) as [Hsk Hse].
  destruct (New_EWMA_entries ivs symbol st m0) as [Hek Hee].
  destruct (New_BOLL_entries ivs symbol st m0) as [Hbk Hbe].
  assert (size (SMA r.1) = (3 * length ivs)%nat) as Hs1.
  { subst r. rewrite (size_keys _ ivs [7; 25; 99] Hnd NoDup_windows Hsk). cbn. lia. }
  assert (size (EWMA r.1) = (3 * length ivs)%nat) as Hs2.
  { subst r. rewrite (size_keys _ ivs [7; 25; 99] Hnd NoDup_windows Hek). cbn. lia. }
  assert (size (BOLL r.1) = length ivs) as Hs3.
  { subst r. rewrite (size_keys _ ivs [21] Hnd NoDup_window21 Hbk). cbn. lia. }
  split; [exact Hsym|]. split; [exact Hst|].
  split; [exact Hsk|]. split; [exact Hek|].
  split. { intros iw. subst r. rewrite Hbk, list_elem_of_singleton. done. }
  split; [exact Hse|]. split; [exact Hee|]. split; [exact Hbe|].
  split; [exact Hs1|]. split; [exact Hs2|]. split; [exact Hs3|].
  split; [exact Hlen|]. split; [exact Hbc|].
  intros Hn. rewrite Hs1, Hs2, Hs3, Hn. done.
Qed.

Lemma NewStandardIndicatorSet_prewarms_witness :
  NoDup demo_intervals ∧
  size (SMA demo_registry.1) = 6%nat ∧
  size (EWMA demo_registry.1) = 6%nat ∧
  size (BOLL demo_registry.1) = 2%nat ∧
  length (objs demo_registry.2) = 14%nat ∧
  bind_count 0%nat demo_registry.2 = 14%nat.
Proof.
  assert (NoDup demo_intervals) as Hnd.
  { apply (bool_decide_unpack _). vm_compute. exact I. }
  split; [exact Hnd|].
  destruct (NewStandardIndicatorSet_prewarms demo_intervals "BTCUSDT" 0%nat
              empty_mem Hnd)
    as (_ & _ & _ & _ & _ & _ & _ & _ & _ & _ & _ & Hlen & Hbc & H2).
  destruct (H2 eq_refl) as (H6 & H6' & H2').
  split; [exact H6|]. split; [exact H6'|]. split; [exact H2'|].
  split; [exact Hlen|exact Hbc].
Defined.

(** C4.  After construction, and after any further get-or-create calls, for
    a key with a supported interval and window 21, [GetBOLL] with any
    multiplier returns the instance the constructor made for the key, whose
    K is 2.0 and which is bound to the store; the registry and the memory are
    unchanged by the call, so nothing is constructed or bound and the
    caller's multiplier is ignored. *)
Theorem GetBOLL_prewarmed_ignores_bandWidth ivs symbol st m0 ops iw bandWidth :
  Window iw = 21 → Interval_of iw ∈ ivs →
  let r0 := NewStandardIndicatorSet ivs symbol st m0 in
  let r := calls ops r0.1 r0.2 in
  ∃ l, BOLL r0.1 !! iw = Some (addr l) ∧
       objs r.2 !! l = Some (BOLLObj iw 2%float) ∧
       bound st (addr l) r.2 ∧
       GetBOLL r.1 iw bandWidth r.2 = ((addr l, r.1), r.2).
Proof.
  intros Hw Hi r0 r.
  destruct (New_BOLL ivs symbol st m0 iw) as [Hin _].
  destruct Hin as (p & Hp & l & -> & _ & Ho & Hb);
    [done|by rewrite Hw, list_elem_of_singleton|].
  destruct (calls_spec ops r0.1 r0.2 (registry_ok_New ivs symbol st m0))
    as (_ & _ & Hx & _ & _ & Hkeep).
  exists l. split; [done|].
  split; [by apply (objs_extends r0.2)|].
  split; [by apply (bound_extends r0.2)|].
  by apply GetBOLL_hit, Hkeep.
Qed.

Lemma GetBOLL_prewarmed_ignores_bandWidth_witness :
  let r := calls [OpBOLL (mkIW "1h" 20) 3%float; OpSMA (mkIW "1h" 14)]
             demo_registry.1 demo_registry.2 in
  Window (mkIW "1h" 21) = 21 ∧ Interval_of (mkIW "1h" 21) ∈ demo_intervals ∧
  ∃ l, objs r.2 !! l = Some (BOLLObj (mkIW "1h" 21) 2%float) ∧
       GetBOLL r.1 (mkIW "1h" 21) 3.5%float r.2 = ((addr l, r.1), r.2).
Proof.
  intros r.
  assert (Interval_of (mkIW "1h" 21) ∈ demo_intervals) as Hi.
  { apply (bool_decide_unpack _). vm_compute. exact I. }
  split; [reflexivity|]. split; [exact Hi|].
  destruct (GetBOLL_prewarmed_ignores_bandWidth demo_intervals "BTCUSDT" 0%nat
              empty_mem [OpBOLL (mkIW "1h" 20) 3%float; OpSMA (mkIW "1h" 14)]
              (mkIW "1h" 21) 3.5%float eq_refl Hi)
    as (l & _ & Ho & _ & Hget).
  exists l. split; [exact Ho|exact Hget].
Defined.

Lemma New_BOLL_absent ivs symbol st m0 iw :
  Window iw ≠ 21 → BOLL (NewStandardIndicatorSet ivs symbol st m0).1 !! iw = None.
Proof.
  intros Hw. apply (New_BOLL ivs symbol st m0 iw).
  rewrite list_elem_of_singleton. tauto.
Qed.

(** C5.  [GetBOLL] with a key that is not in the BOLL map (after
    construction: any key whose window is not 21) allocates exactly one
    object, the band indicator for that key with the caller's multiplier,
    makes exactly one bind, of that object to the registry's store, and
    stores the object's address in the BOLL map under the key; nothing else
    of the registry changes. *)
Theorem GetBOLL_miss_constructs set iw bandWidth m :
  BOLL set !! iw = None →
  let r := GetBOLL set iw bandWidth m in
  let l := length (objs m) in
  objs r.2 = objs m ++ [BOLLObj iw bandWidth] ∧
  callbacks r.2 = callbacks m ++ [(store set, addr l)] ∧
  bind_count (store set) r.2 = S (bind_count (store set) m) ∧
  BOLL r.1.2 = <[iw := addr l]> (BOLL set) ∧
  BOLL r.1.2 !! iw = Some (addr l) ∧
  objs r.2 !! l = Some (BOLLObj iw bandWidth) ∧
  SMA r.1.2 = SMA set ∧ EWMA r.1.2 = EWMA set ∧
  store r.1.2 = store set ∧ Symbol r.1.2 = Symbol set.
Proof.
  intros Hmiss r l. subst r l. rewrite GetBOLL_miss by done.
  cbn [fst snd alloc_bound set_BOLL objs callbacks BOLL SMA EWMA store Symbol].
  split; [done|]. split; [done|].
  split.
  { unfold alloc_bound. rewrite bind_count_app.
    rewrite filter_cons_True by done. cbn. lia. }
  split; [done|]. split; [by rewrite lookup_insert_eq|].
  split; [by rewrite lookup_app_r, Nat.sub_diag|]. done.
Qed.

Lemma GetBOLL_miss_constructs_witness :
  BOLL demo_registry.1 !! mkIW "1h" 20 = None ∧
  objs (GetBOLL demo_registry.1 (mkIW "1h" 20) 3%float demo_registry.2).2 =
    objs demo_registry.2 ++ [BOLLObj (mkIW "1h" 20) 3%float] ∧
  callbacks (GetBOLL demo_registry.1 (mkIW "1h" 20) 3%float demo_registry.2).2 =
    callbacks demo_registry.2 ++ [(0%nat, addr 14)].
Proof.
  assert (BOLL demo_registry.1 !! mkIW "1h" 20 = None) as Hmiss.
  { apply New_BOLL_absent. cbn. lia. }
  split; [exact Hmiss|].
  destruct (GetBOLL_miss_constructs demo_registry.1 (mkIW "1h" 20) 3%float
              demo_registry.2 Hmiss) as (Ho & Hc & _).
  split; [exact Ho|exact Hc].
Defined.

(** C6.  After construction, and after any further get-or-create calls, for
    a key with a supported interval and a window in 7, 25, 99, [GetSMA] and
    [GetEWMA] return the instance the constructor made for the key, which is
    bound to the store; the registry and the memory are unchanged by the
    call, so no instance is constructed and the store's bind count does not
    increase. *)
Theorem GetSMA_GetEWMA_prewarmed_hit ivs symbol st m0 ops iw :
  Interval_of iw ∈ ivs → Window iw ∈ [7; 25; 99] →
  let r0 := NewStandardIndicatorSet ivs symbol st m0 in
  let r := calls ops r0.1 r0.2 in
  (∃ l, SMA r0.1 !! iw = Some (addr l) ∧
        objs r.2 !! l = Some (SMAObj iw) ∧ bound st (addr l) r.2 ∧
        GetSMA r.1 iw r.2 = ((addr l, r.1), r.2)) ∧
  (∃ l, EWMA r0.1 !! iw = Some (addr l) ∧
        objs r.2 !! l = Some (EWMAObj iw) ∧ bound st (addr l) r.2 ∧
        GetEWMA r.1 iw r.2 = ((addr l, r.1), r.2)) ∧
  bind_count st (GetSMA r.1 iw r.2).2 = bind_count st r.2 ∧
  bind_count st (GetEWMA r.1 iw r.2).2 = bind_count st r.2 ∧
  objs (GetSMA r.1 iw r.2).2 = objs r.2 ∧
  objs (GetEWMA r.1 iw r.2).2 = objs r.2.
Proof.
  intros Hi Hw r0 r.
  destruct (New_SMA ivs symbol st m0 iw) as [Hs _].
  destruct (Hs Hi Hw) as (p & Hp & l & -> & _ & Ho & Hb).
  destruct (New_EWMA ivs symbol st m0 iw) as [He _].
  destruct (He Hi Hw) as (q & Hq & l' & -> & _ & Ho' & Hb').
  destruct (calls_spec ops r0.1 r0.2 (registry_ok_New ivs symbol st m0))
    as (_ & _ & Hx & Hks & Hke & _).
  fold r0 in Hp, Hq, Ho, Ho', Hb, Hb'. fold r in Hx, Hks, Hke.
  rewrite (GetSMA_hit _ _ _ r.2 (Hks _ _ Hp)),
          (GetEWMA_hit _ _ _ r.2 (Hke _ _ Hq)).
  split.
  { exists l. split; [done|]. split; [by apply (objs_extends r0.2)|].
    split; [by apply (bound_extends r0.2)|done]. }
  split.
  { exists l'. split; [done|]. split; [by apply (objs_extends r0.2)|].
    split; [by apply (bound_extends r0.2)|done]. }
  done.
Qed.

Lemma GetSMA_GetEWMA_prewarmed_hit_witness :
  let r := calls [OpSMA (mkIW "1m" 14)] demo_registry.1 demo_registry.2 in
  Interval_of (mkIW "1m" 25) ∈ demo_intervals ∧
  Window (mkIW "1m" 25) ∈ [7; 25; 99] ∧
  bind_count 0%nat (GetSMA r.1 (mkIW "1m" 25) r.2).2 = bind_count 0%nat r.2 ∧
  bind_count 0%nat (GetEWMA r.1 (mkIW "1m" 25) r.2).2 = bind_count 0%nat r.2.
Proof.
  intros r.
  assert (Interval_of (mkIW "1m" 25) ∈ demo_intervals) as Hi.
  { apply (bool_decide_unpack _). vm_compute. exact I. }
  assert (Window (mkIW "1m" 25) ∈ [7; 25; 99]) as Hw.
  { apply (bool_decide_unpack _). vm_compute. exact I. }
  split; [exact Hi|]. split; [exact Hw|].
  destruct (GetSMA_GetEWMA_prewarmed_hit demo_intervals "BTCUSDT" 0%nat
              empty_mem [OpSMA (mkIW "1m" 14)] (mkIW "1m" 25) Hi Hw)
    as (_ & _ & Hs & He & _).
  split; [exact Hs|exact He].
Defined.

(** C10.  In a registry whose entries are bound instances (as the
    constructor leaves it and every call keeps it), after one call of
    [GetSMA], [GetEWMA] or [GetBOLL] with a key, hit or miss, the family's
    map holds under that key the address of an object of the family built
    for the key and bound to the registry's store; and after any further
    calls of the three operations, a call with the same key returns exactly
    that address and changes neither the registry nor the memory. *)
Theorem get_or_create_settles set m iw bandWidth :
  registry_ok set m →
  (let r := GetSMA set iw m in
   ∃ l, SMA r.1.2 !! iw = Some (addr l) ∧
        objs r.2 !! l = Some (SMAObj iw) ∧
        bound (store r.1.2) (addr l) r.2 ∧
        ∀ ops, let r' := calls ops r.1.2 r.2 in
               GetSMA r'.1 iw r'.2 = ((addr l, r'.1), r'.2)) ∧
  (let r := GetEWMA set iw m in
   ∃ l, EWMA r.1.2 !! iw = Some (addr l) ∧
        objs r.2 !! l = Some (EWMAObj iw) ∧
        bound (store r.1.2) (addr l) r.2 ∧
        ∀ ops, let r' := calls ops r.1.2 r.2 in
               GetEWMA r'.1 iw r'.2 = ((addr l, r'.1), r'.2)) ∧
  (let r := GetBOLL set iw bandWidth m in
   ∃ l K, BOLL r.1.2 !! iw = Some (addr l) ∧
        objs r.2 !! l = Some (BOLLObj iw K) ∧
        bound (store r.1.2) (addr l) r.2 ∧
        ∀ ops bandWidth',
          let r' := calls ops r.1.2 r.2 in
          GetBOLL r'.1 iw bandWidth' r'.2 = ((addr l, r'.1), r'.2)).
Proof.
  intros Hok. split; [|split].
  - by apply GetSMA_settles.
  - by apply GetEWMA_settles.
  - by apply GetBOLL_settles.
Qed.

Lemma get_or_create_settles_witness :
  registry_ok demo_registry.1 demo_registry.2 ∧
  let r := GetSMA demo_registry.1 (mkIW "1m" 14) demo_registry.2 in
  ∃ l, SMA r.1.2 !! mkIW "1m" 14 = Some (addr l) ∧
       ∀ ops, let r' := calls ops r.1.2 r.2 in
              GetSMA r'.1 (mkIW "1m" 14) r'.2 = ((addr l, r'.1), r'.2).
Proof.
  assert (registry_ok demo_registry.1 demo_registry.2) as Hok
    by apply registry_ok_New.
  split; [exact Hok|].
  destruct (get_or_create_settles demo_registry.1 demo_registry.2
              (mkIW "1m" 14) 2%float Hok) as ((l & Hl & _ & _ & Hstable) & _).
  exists l. split; [exact Hl|exact Hstable].
Defined.


(** ** The registry: further properties of the code *)

Lemma call_store set op m : store (call set op m).1.2 = store set.
Proof.
  destruct op as [iw|iw|iw bw]; cbn [call].
  - destruct (SMA set !! iw) as [p|] eqn:Hl;
      [by rewrite (GetSMA_hit _ _ p)|by rewrite GetSMA_miss].
  - destruct (EWMA set !! iw) as [p|] eqn:Hl;
      [by rewrite (GetEWMA_hit _ _ p)|by rewrite GetEWMA_miss].
  - destruct (BOLL set !! iw) as [p|] eqn:Hl;
      [by rewrite (GetBOLL_hit _ _ _ p)|by rewrite GetBOLL_miss].
Qed.

(** What a call leaves alone, on the maps of the model. *)
Lemma Get_frame set iw bandWidth m :
  (let r := GetSMA set iw m in
   Symbol r.1.2 = Symbol set ∧ store r.1.2 = store set ∧
   EWMA r.1.2 = EWMA set ∧ BOLL r.1.2 = BOLL set ∧
   dom (SMA r.1.2) = {[iw]} ∪ dom (SMA set) ∧
   ∀ k p, SMA set !! k = Some p → SMA r.1.2 !! k = Some p) ∧
  (let r := GetEWMA set iw m in
   Symbol r.1.2 = Symbol set ∧ store r.1.2 = store set ∧
   SMA r.1.2 = SMA set ∧ BOLL r.1.2 = BOLL set ∧
   dom (EWMA r.1.2) = {[iw]} ∪ dom (EWMA set) ∧
   ∀ k p, EWMA set !! k = Some p → EWMA r.1.2 !! k = Some p) ∧
  (let r := GetBOLL set iw bandWidth m in
   Symbol r.1.2 = Symbol set ∧ store r.1.2 = store set ∧
   SMA r.1.2 = SMA set ∧ EWMA r.1.2 = EWMA set ∧
   dom (BOLL r.1.2) = {[iw]} ∪ dom (BOLL set) ∧
   ∀ k p, BOLL set !! k = Some p → BOLL r.1.2 !! k = Some p).
Proof.
  split; [|split]; cbv zeta.
  - destruct (SMA set !! iw) as [p|] eqn:Hl.
    + rewrite (GetSMA_hit _ _ p) by done. cbn [fst snd].
      repeat (split; [done|]). split; [|done].
      apply (elem_of_dom_2 (D := gset IntervalWindow)) in Hl.
      symmetry. apply subseteq_union_1_L. by apply singleton_subseteq_l.
    + rewrite GetSMA_miss by done. cbn [fst snd set_SMA SMA EWMA BOLL store Symbol].
      repeat (split; [done|]). split; [apply dom_insert_L|].
      intros k p Hk. rewrite lookup_insert_ne; [done|congruence].
  - destruct (EWMA set !! iw) as [p|] eqn:Hl.
    + rewrite (GetEWMA_hit _ _ p) by done. cbn [fst snd].
      repeat (split; [done|]). split; [|done].
      apply (elem_of_dom_2 (D := gset IntervalWindow)) in Hl.
      symmetry. apply subseteq_union_1_L. by apply singleton_subseteq_l.
    + rewrite GetEWMA_miss by done. cbn [fst snd set_EWMA SMA EWMA BOLL store Symbol].
      repeat (split; [done|]). split; [apply dom_insert_L|].
      intros k p Hk. rewrite lookup_insert_ne; [done|congruence].
  - destruct (BOLL set !! iw) as [p|] eqn:Hl.
    + rewrite (GetBOLL_hit _ _ _ p) by done. cbn [fst snd].
      repeat (split; [done|]). split; [|done].
      apply (elem_of_dom_2 (D := gset IntervalWindow)) in Hl.
      symmetry. apply subseteq_union_1_L. by apply singleton_subseteq_l.
    + rewrite GetBOLL_miss by done. cbn [fst snd set_BOLL SMA EWMA BOLL store Symbol].
      repeat (split; [done|]). split; [apply dom_insert_L|].
      intros k p Hk. rewrite lookup_insert_ne; [done|congruence].
Qed.

(** X1.  On a registry built by the constructor and used through any
    get-or-create calls, a further call touches nothing but its own family's
    map, and that map only at the requested key: symbol, store and the two
    other maps are as before, every existing entry keeps its instance, and
    the keys of the family's map afterwards are the old keys and the
    requested one. *)
Theorem get_or_create_frame ivs symbol st m0 ops iw bandWidth :
  let r0 := NewStandardIndicatorSet ivs symbol st m0 in
  let c := calls ops r0.1 r0.2 in
  (let r := GetSMA c.1 iw c.2 in
   Symbol r.1.2 = Symbol c.1 ∧ store r.1.2 = store c.1 ∧
   EWMA r.1.2 = EWMA c.1 ∧ BOLL r.1.2 = BOLL c.1 ∧
   dom (SMA r.1.2) = {[iw]} ∪ dom (SMA c.1) ∧
   ∀ k p, SMA c.1 !! k = Some p → SMA r.1.2 !! k = Some p) ∧
  (let r := GetEWMA c.1 iw c.2 in
   Symbol r.1.2 = Symbol c.1 ∧ store r.1.2 = store c.1 ∧
   SMA r.1.2 = SMA c.1 ∧ BOLL r.1.2 = BOLL c.1 ∧
   dom (EWMA r.1.2) = {[iw]} ∪ dom (EWMA c.1) ∧
   ∀ k p, EWMA c.1 !! k = Some p → EWMA r.1.2 !! k = Some p) ∧
  (let r := GetBOLL c.1 iw bandWidth c.2 in
   Symbol r.1.2 = Symbol c.1 ∧ store r.1.2 = store c.1 ∧
   SMA r.1.2 = SMA c.1 ∧ EWMA r.1.2 = EWMA c.1 ∧
   dom (BOLL r.1.2) = {[iw]} ∪ dom (BOLL c.1) ∧
   ∀ k p, BOLL c.1 !! k = Some p → BOLL r.1.2 !! k = Some p).
Proof. intros r0 c. apply Get_frame. Qed.

Lemma reachable_registry ivs symbol st m0 ops :
  let r0 := NewStandardIndicatorSet ivs symbol st m0 in
  let c := calls ops r0.1 r0.2 in
  registry_ok c.1 c.2 ∧ store c.1 = st.
Proof.
  intros r0 c.
  destruct (calls_spec ops r0.1 r0.2 (registry_ok_New ivs symbol st m0))
    as (Hok & Hst & _).
  destruct (prewarm_loop_frame st ivs (mkSet symbol ∅ ∅ ∅ st) m0)
    as (_ & Hst0 & _).
  split; [exact Hok|]. fold c in Hst. rewrite Hst. exact Hst0.
Qed.

(** X2.  On a registry built by the constructor and used through any
    get-or-create calls, a call returns what the family's map held under the
    key before the call: on a hit the stored pointer, which is the address
    of the family's object built for that very key and bound to the store,
    and on a miss nil; so the result is nil exactly when the key was
    absent. *)
Theorem get_or_create_returns_held ivs symbol st m0 ops iw bandWidth :
  let r0 := NewStandardIndicatorSet ivs symbol st m0 in
  let c := calls ops r0.1 r0.2 in
  ((GetSMA c.1 iw c.2).1.1 = default nil (SMA c.1 !! iw) ∧
   ((GetSMA c.1 iw c.2).1.1 = nil ↔ SMA c.1 !! iw = None) ∧
   (∀ l, (GetSMA c.1 iw c.2).1.1 = addr l →
         objs c.2 !! l = Some (SMAObj iw) ∧ bound st (addr l) c.2)) ∧
  ((GetEWMA c.1 iw c.2).1.1 = default nil (EWMA c.1 !! iw) ∧
   ((GetEWMA c.1 iw c.2).1.1 = nil ↔ EWMA c.1 !! iw = None) ∧
   (∀ l, (GetEWMA c.1 iw c.2).1.1 = addr l →
         objs c.2 !! l = Some (EWMAObj iw) ∧ bound st (addr l) c.2)) ∧
  ((GetBOLL c.1 iw bandWidth c.2).1.1 = default nil (BOLL c.1 !! iw) ∧
   ((GetBOLL c.1 iw bandWidth c.2).1.1 = nil ↔ BOLL c.1 !! iw = None) ∧
   (∀ l, (GetBOLL c.1 iw bandWidth c.2).1.1 = addr l →
         (∃ K, objs c.2 !! l = Some (BOLLObj iw K)) ∧ bound st (addr l) c.2)).
Proof.
  intros r0 c.
  destruct (reachable_registry ivs symbol st m0 ops) as ((Hs & He & Hb) & Hst).
  fold r0 c in Hs, He, Hb, Hst. rewrite Hst in Hs, He, Hb.
  split; [|split].
  - destruct (SMA c.1 !! iw) as [p|] eqn:Hl.
    + rewrite (GetSMA_hit _ _ p) by done. cbn.
      destruct (Hs iw p Hl) as (l & o & -> & Ho & -> & Hbd).
      split; [done|]. split; [done|]. by intros ? [= <-].
    + rewrite GetSMA_miss by done. cbn. by repeat split.
  - destruct (EWMA c.1 !! iw) as [p|] eqn:Hl.
    + rewrite (GetEWMA_hit _ _ p) by done. cbn.
      destruct (He iw p Hl) as (l & o & -> & Ho & -> & Hbd).
      split; [done|]. split; [done|]. by intros ? [= <-].
    + rewrite GetEWMA_miss by done. cbn. by repeat split.
  - destruct (BOLL c.1 !! iw) as [p|] eqn:Hl.
    + rewrite (GetBOLL_hit _ _ _ p) by done. cbn.
      destruct (Hb iw p Hl) as (l & o & -> & Ho & [K ->] & Hbd).
      split; [done|]. split; [done|]. intros ? [= <-]. split; [by exists K|done].
    + rewrite GetBOLL_miss by done. cbn. by repeat split.
Qed.

(** Entries that are objects built for their own key cannot coincide. *)
Lemma registry_ok_no_aliasing set m :
  registry_ok set m →
  (∀ k1 k2 p, SMA set !! k1 = Some p → SMA set !! k2 = Some p → k1 = k2) ∧
  (∀ k1 k2 p, EWMA set !! k1 = Some p → EWMA set !! k2 = Some p → k1 = k2) ∧
  (∀ k1 k2 p, BOLL set !! k1 = Some p → BOLL set !! k2 = Some p → k1 = k2) ∧
  (∀ k1 k2 p, SMA set !! k1 = Some p → EWMA set !! k2 = Some p → False) ∧
  (∀ k1 k2 p, SMA set !! k1 = Some p → BOLL set !! k2 = Some p → False) ∧
  (∀ k1 k2 p, EWMA set !! k1 = Some p → BOLL set !! k2 = Some p → False).
Proof.
  intros (Hs & He & Hb). unfold is_SMA, is_EWMA, is_BOLL in *.
  repeat split; intros k1 k2 p H1 H2.
  - destruct (Hs _ _ H1) as (l1 & o1 & -> & Ho1 & -> & _).
    destruct (Hs _ _ H2) as (l2 & o2 & [= <-] & Ho2 & -> & _). congruence.
  - destruct (He _ _ H1) as (l1 & o1 & -> & Ho1 & -> & _).
    destruct (He _ _ H2) as (l2 & o2 & [= <-] & Ho2 & -> & _). congruence.
  - destruct (Hb _ _ H1) as (l1 & o1 & -> & Ho1 & [K1 ->] & _).
    destruct (Hb _ _ H2) as (l2 & o2 & [= <-] & Ho2 & [K2 ->] & _). congruence.
  - destruct (Hs _ _ H1) as (l1 & o1 & -> & Ho1 & -> & _).
    destruct (He _ _ H2) as (l2 & o2 & [= <-] & Ho2 & -> & _). congruence.
  - destruct (Hs _ _ H1) as (l1 & o1 & -> & Ho1 & -> & _).
    destruct (Hb _ _ H2) as (l2 & o2 & [= <-] & Ho2 & [K2 ->] & _). congruence.
  - destruct (He _ _ H1) as (l1 & o1 & -> & Ho1 & -> & _).
    destruct (Hb _ _ H2) as (l2 & o2 & [= <-] & Ho2 & [K2 ->] & _). congruence.
Qed.

(** X3.  No aliasing: after the constructor and any get-or-create calls, two
    keys of one map that hold the same instance are the same key, and no
    instance is held by the maps of two different families. *)
Theorem registry_no_aliasing ivs symbol st m0 ops :
  let r0 := NewStandardIndicatorSet ivs symbol st m0 in
  let c := calls ops r0.1 r0.2 in
  (∀ k1 k2 p, SMA c.1 !! k1 = Some p → SMA c.1 !! k2 = Some p → k1 = k2) ∧
  (∀ k1 k2 p, EWMA c.1 !! k1 = Some p → EWMA c.1 !! k2 = Some p → k1 = k2) ∧
  (∀ k1 k2 p, BOLL c.1 !! k1 = Some p → BOLL c.1 !! k2 = Some p → k1 = k2) ∧
  (∀ k1 k2 p, SMA c.1 !! k1 = Some p → EWMA c.1 !! k2 = Some p → False) ∧
  (∀ k1 k2 p, SMA c.1 !! k1 = Some p → BOLL c.1 !! k2 = Some p → False) ∧
  (∀ k1 k2 p, EWMA c.1 !! k1 = Some p → BOLL c.1 !! k2 = Some p → False).
Proof.
  intros r0 c. apply (registry_ok_no_aliasing c.1 c.2).
  apply (reachable_registry ivs symbol st m0 ops).
Qed.

(** X4.  The invariant is kept along every use of the registry: after the
    constructor and any sequence of get-or-create calls, every entry of the
    three maps is the address of an allocated object of the map's family,
    built for the entry's key and bound to the store the registry was
    constructed with. *)
Theorem registry_invariant_reachable ivs symbol st m0 ops :
  let r0 := NewStandardIndicatorSet ivs symbol st m0 in
  let r := calls ops r0.1 r0.2 in
  registry_ok r.1 r.2 ∧ store r.1 = st ∧ mem_extends m0 r.2.
Proof.
  intros r0 r.
  destruct (calls_spec ops r0.1 r0.2 (registry_ok_New ivs symbol st m0))
    as (Hok & Hst & Hx & _).
  destruct (prewarm_loop_frame st ivs (mkSet symbol ∅ ∅ ∅ st) m0)
    as (_ & Hst0 & _).
  split; [exact Hok|]. split.
  - fold r in Hst. rewrite Hst. exact Hst0.
  - etrans; [|exact Hx]. apply prewarm_loop_extends.
Qed.

Lemma filter_all {A} (P : A → Prop) `{∀ x, Decision (P x)} (l : list A) :
  Forall P l → filter P l = l.
Proof.
  induction 1 as [|x l Hx _ IH]; [done|].
  rewrite filter_cons_True by done. by rewrite IH.
Qed.

Lemma one_bind_each_alloc st o m :
  one_bind_each st m → one_bind_each st (alloc_bound o st m).
Proof.
  unfold one_bind_each, alloc_bound. cbn. intros ->.
  rewrite length_app. cbn. rewrite Nat.add_1_r, seq_S, fmap_app. done.
Qed.

Lemma one_bind_each_prewarm st set i m :
  one_bind_each st m → one_bind_each st (prewarm_interval st set i m).2.
Proof.
  unfold one_bind_each. rewrite prewarm_interval_eq. cbn [snd objs callbacks].
  intros ->. rewrite length_app.
  change (length (prewarm_objs i)) with 7%nat.
  rewrite seq_app, fmap_app. f_equal.
  unfold prewarm_binds. cbn [seq fmap list_fmap Nat.add].
  by rewrite ?Nat.add_succ_r, ?Nat.add_0_r.
Qed.

Lemma one_bind_each_loop st ivs : ∀ set m,
  one_bind_each st m →
  one_bind_each st (for_range ivs (prewarm_interval st) set m).2.
Proof.
  induction ivs as [|i ivs IH]; intros set m Hm; [done|].
  rewrite for_range_cons. by apply IH, one_bind_each_prewarm.
Qed.

Lemma one_bind_each_call st set op m :
  store set = st → one_bind_each st m → one_bind_each st (call set op m).2.
Proof.
  intros <- Hm. destruct op as [iw|iw|iw bw]; cbn [call].
  - destruct (SMA set !! iw) as [p|] eqn:Hl.
    + by rewrite (GetSMA_hit _ _ p).
    + rewrite GetSMA_miss by done. by apply one_bind_each_alloc.
  - destruct (EWMA set !! iw) as [p|] eqn:Hl.
    + by rewrite (GetEWMA_hit _ _ p).
    + rewrite GetEWMA_miss by done. by apply one_bind_each_alloc.
  - destruct (BOLL set !! iw) as [p|] eqn:Hl.
    + by rewrite (GetBOLL_hit _ _ _ p).
    + rewrite GetBOLL_miss by done. by apply one_bind_each_alloc.
Qed.

Lemma one_bind_each_calls st ops : ∀ set m,
  store set = st → one_bind_each st m → one_bind_each st (calls ops set m).2.
Proof.
  induction ops as [|op ops IH]; intros set m Hst Hm; [done|].
  rewrite calls_cons. apply IH.
  - by rewrite call_store.
  - by apply one_bind_each_call.
Qed.

(** X5.  Binding happens exactly once per instance.  For a registry
    constructed on a memory with no objects and no registrations, after the
    constructor and any sequence of get-or-create calls, the registrations
    are, in allocation order, one for each allocated object, all with the
    registry's store; so the store's bind count is the number of objects. *)
Theorem every_instance_bound_once ivs symbol st ops :
  let r0 := NewStandardIndicatorSet ivs symbol st empty_mem in
  let r := calls ops r0.1 r0.2 in
  callbacks r.2 = (λ l, (st, addr l)) <$> seq 0 (length (objs r.2)) ∧
  bind_count st r.2 = length (objs r.2).
Proof.
  intros r0 r.
  assert (one_bind_each st r.2) as Hone.
  { apply one_bind_each_calls.
    - by destruct (prewarm_loop_frame st ivs (mkSet symbol ∅ ∅ ∅ st) empty_mem)
        as (_ & ? & _).
    - by apply one_bind_each_loop. }
  split; [exact Hone|].
  unfold bind_count. rewrite Hone, filter_all.
  - by rewrite length_fmap, length_seq.
  - apply Forall_fmap, Forall_forall. by intros.
Qed.

Lemma bind_count_alloc st st' o m :
  bind_count st' (alloc_bound o st m) =
    (bind_count st' m + if decide (st = st') then 1 else 0)%nat.
Proof.
  unfold alloc_bound. rewrite bind_count_app.
  rewrite filter_cons. cbn [fst]. by destruct (decide (st = st')).
Qed.

Lemma length_objs_alloc st o m :
  length (objs (alloc_bound o st m)) = S (length (objs m)).
Proof. cbn. rewrite length_app. cbn. lia. Qed.

Ltac miss_accounting :=
  rewrite map_size_insert_None, length_objs_alloc, bind_count_alloc by done;
  rewrite decide_True by done;
  split; [lia|]; split; [lia|];
  intros st' Hne; rewrite bind_count_alloc, decide_False by done; lia.

Lemma call_accounting set op m :
  let r := call set op m in
  (size (SMA r.1.2) + size (EWMA r.1.2) + size (BOLL r.1.2) + length (objs m) =
   size (SMA set) + size (EWMA set) + size (BOLL set) + length (objs r.2))%nat ∧
  (bind_count (store set) r.2 + length (objs m) =
   bind_count (store set) m + length (objs r.2))%nat ∧
  (∀ st', st' ≠ store set → bind_count st' r.2 = bind_count st' m).
Proof.
  cbv zeta. destruct op as [iw|iw|iw bw]; cbn [call].
  - destruct (SMA set !! iw) as [p|] eqn:Hl.
    + rewrite (GetSMA_hit _ _ p) by done. cbn [fst snd]. by repeat split.
    + rewrite GetSMA_miss by done. cbn [fst snd set_SMA SMA EWMA BOLL].
      miss_accounting.
  - destruct (EWMA set !! iw) as [p|] eqn:Hl.
    + rewrite (GetEWMA_hit _ _ p) by done. cbn [fst snd]. by repeat split.
    + rewrite GetEWMA_miss by done. cbn [fst snd set_EWMA SMA EWMA BOLL].
      miss_accounting.
  - destruct (BOLL set !! iw) as [p|] eqn:Hl.
    + rewrite (GetBOLL_hit _ _ _ p) by done. cbn [fst snd]. by repeat split.
    + rewrite GetBOLL_miss by done. cbn [fst snd set_BOLL SMA EWMA BOLL].
      miss_accounting.
Qed.

Lemma calls_accounting_from ops : ∀ set m,
  let r := calls ops set m in
  (size (SMA r.1) + size (EWMA r.1) + size (BOLL r.1) + length (objs m) =
   size (SMA set) + size (EWMA set) + size (BOLL set) + length (objs r.2))%nat ∧
  (bind_count (store set) r.2 + length (objs m) =
   bind_count (store set) m + length (objs r.2))%nat ∧
  (∀ st', st' ≠ store set → bind_count st' r.2 = bind_count st' m).
Proof.
  induction ops as [|op ops IH]; intros set m; cbv zeta.
  { cbn. by repeat split. }
  rewrite calls_cons.
  destruct (call_accounting set op m) as (H1 & H2 & H3).
  destruct (IH (call set op m).1.2 (call set op m).2) as (I1 & I2 & I3).
  rewrite call_store in I2, I3.
  split; [lia|]. split; [lia|].
  intros st' Hne. rewrite I3, H3 by done. done.
Qed.

(** X6.  Accounting over any sequence of get-or-create calls on a registry
    built by the constructor (and already used through any calls): the three
    maps gain together exactly as many entries as objects are allocated, the
    registry's store gets exactly as many binds as objects are allocated,
    and no other store gets any. *)
Theorem calls_accounting ivs symbol st m0 ops0 ops :
  let r0 := NewStandardIndicatorSet ivs symbol st m0 in
  let c := calls ops0 r0.1 r0.2 in
  let r := calls ops c.1 c.2 in
  (size (SMA r.1) + size (EWMA r.1) + size (BOLL r.1) + length (objs c.2) =
   size (SMA c.1) + size (EWMA c.1) + size (BOLL c.1) + length (objs r.2))%nat ∧
  (bind_count st r.2 + length (objs c.2) =
   bind_count st c.2 + length (objs r.2))%nat ∧
  (∀ st', st' ≠ st → bind_count st' r.2 = bind_count st' c.2).
Proof.
  intros r0 c r.
  destruct (reachable_registry ivs symbol st m0 ops0) as (_ & Hst).
  fold r0 c in Hst. rewrite <- Hst.
  apply (calls_accounting_from ops c.1 c.2).
Qed.

(** X7.  The order in which the supported intervals are visited does not
    matter: for two orders of the same intervals the constructor gives maps
    with the same keys, as many objects and as many binds on the store, and
    under every key an object with the same contents. *)
Theorem NewStandardIndicatorSet_order_irrelevant ivs ivs' symbol st m0 :
  ivs ≡ₚ ivs' →
  let r := NewStandardIndicatorSet ivs symbol st m0 in
  let r' := NewStandardIndicatorSet ivs' symbol st m0 in
  dom (SMA r.1) = dom (SMA r'.1) ∧
  dom (EWMA r.1) = dom (EWMA r'.1) ∧
  dom (BOLL r.1) = dom (BOLL r'.1) ∧
  length (objs r.2) = length (objs r'.2) ∧
  bind_count st r.2 = bind_count st r'.2 ∧
  (∀ iw l l', SMA r.1 !! iw = Some (addr l) → SMA r'.1 !! iw = Some (addr l') →
              objs r.2 !! l = objs r'.2 !! l') ∧
  (∀ iw l l', EWMA r.1 !! iw = Some (addr l) → EWMA r'.1 !! iw = Some (addr l') →
              objs r.2 !! l = objs r'.2 !! l') ∧
  (∀ iw l l', BOLL r.1 !! iw = Some (addr l) → BOLL r'.1 !! iw = Some (addr l') →
              objs r.2 !! l = objs r'.2 !! l').
Proof.
  intros Hp r r'.
  destruct (New_SMA_entries ivs symbol st m0) as [Hsk Hse].
  destruct (New_EWMA_entries ivs symbol st m0) as [Hek Hee].
  destruct (New_BOLL_entries ivs symbol st m0) as [Hbk Hbe].
  destruct (New_SMA_entries ivs' symbol st m0) as [Hsk' Hse'].
  destruct (New_EWMA_entries ivs' symbol st m0) as [Hek' Hee'].
  destruct (New_BOLL_entries ivs' symbol st m0) as [Hbk' Hbe'].
  destruct (prewarm_loop_frame st ivs (mkSet symbol ∅ ∅ ∅ st) m0)
    as (_ & _ & Hlen & Hbc & _).
  destruct (prewarm_loop_frame st ivs' (mkSet symbol ∅ ∅ ∅ st) m0)
    as (_ & _ & Hlen' & Hbc' & _).
  assert (∀ i, i ∈ ivs ↔ i ∈ ivs') as Hin by (intros i; by rewrite Hp).
  subst r r'. split.
  { apply set_eq. intros iw. by rewrite !elem_of_dom, Hsk, Hsk', Hin. }
  split.
  { apply set_eq. intros iw. by rewrite !elem_of_dom, Hek, Hek', Hin. }
  split.
  { apply set_eq. intros iw. by rewrite !elem_of_dom, Hbk, Hbk', Hin. }
  split.
  { unfold NewStandardIndicatorSet. by rewrite Hlen, Hlen', Hp. }
  split.
  { unfold NewStandardIndicatorSet. by rewrite Hbc, Hbc', Hp. }
  split; [|split]; intros iw l l' H1 H2.
  - destruct (Hse _ _ H1) as (? & [= <-] & _ & -> & _).
    by destruct (Hse' _ _ H2) as (? & [= <-] & _ & -> & _).
  - destruct (Hee _ _ H1) as (? & [= <-] & _ & -> & _).
    by destruct (Hee' _ _ H2) as (? & [= <-] & _ & -> & _).
  - destruct (Hbe _ _ H1) as (? & [= <-] & _ & -> & _).
    by destruct (Hbe' _ _ H2) as (? & [= <-] & _ & -> & _).
Qed.

Lemma NewStandardIndicatorSet_order_irrelevant_witness :
  let r := NewStandardIndicatorSet ["1m"; "1h"]%string "BTCUSDT" 0%nat empty_mem in
  let r' := NewStandardIndicatorSet ["1h"; "1m"]%string "BTCUSDT" 0%nat empty_mem in
  ["1m"; "1h"]%string ≡ₚ ["1h"; "1m"]%string ∧
  dom (SMA r.1) = dom (SMA r'.1) ∧ dom (BOLL r.1) = dom (BOLL r'.1).
Proof.
  intros r r'.
  assert (["1m"; "1h"]%string ≡ₚ ["1h"; "1m"]%string) as Hp by apply perm_swap.
  split; [exact Hp|].
  destruct (NewStandardIndicatorSet_order_irrelevant _ _ "BTCUSDT" 0%nat
              empty_mem Hp) as (Hs & _ & Hb & _).
  split; [exact Hs|exact Hb].
Defined.

(** ** The session *)

Module SessionFacts.
Import Session.
Section facts.
Context `{types.External}.

Lemma entries_at_Some `{Countable K} {V} (k : K) (v : V) (m : gmap K V) :
  m !! k = Some v → entries_at k m = 1%nat.
Proof.
  intros Hk. unfold entries_at.
  rewrite <- (map_to_list_delete m k v Hk).
  rewrite filter_cons_True by done. cbn. f_equal.
  apply length_zero_iff_nil. apply elem_of_nil_inv.
  intros [k' v'] [Hk' Hin]%list_elem_of_filter. cbn in Hk'. subst k'.
  apply elem_of_map_to_list in Hin. by rewrite lookup_delete_eq in Hin.
Qed.

Lemma entries_at_None `{Countable K} {V} (k : K) (m : gmap K V) :
  m !! k = None → entries_at k m = 0%nat.
Proof.
  intros Hk. unfold entries_at.
  apply length_zero_iff_nil. apply elem_of_nil_inv.
  intros [k' v'] [Hk' Hin]%list_elem_of_filter. cbn in Hk'. subst k'.
  apply elem_of_map_to_list in Hin. congruence.
Qed.

Lemma Subscribe_eq l s channel symbol options (h : list ExchangeSession) :
  h !! l = Some s →
  Subscribe (addr l) channel symbol options h =
    Some (addr l, <[l := recorded channel symbol options s]> h).
Proof. intros Hl. unfold Subscribe. rewrite Hl. done. Qed.

Lemma recorded_idemp channel symbol options s :
  recorded channel symbol options (recorded channel symbol options s) =
  recorded channel symbol options s.
Proof.
  unfold recorded, set_Subscriptions, set_loadedSymbols. cbn.
  by rewrite !insert_insert_eq.
Qed.

Lemma deref_insert l s s' (h : list ExchangeSession) :
  h !! l = Some s → deref (<[l := s']> h) (addr l) = Some s'.
Proof.
  intros Hl. cbn. apply list_lookup_insert_eq. by eapply lookup_lt_Some.
Qed.

(** [Subscribe] leaves every per-symbol lookup as it was. *)
Lemma Subscribe_lookups l s channel symbol options (h : list ExchangeSession) sym :
  h !! l = Some s →
  let h' := <[l := recorded channel symbol options s]> h in
  StandardIndicatorSet (addr l) sym h' = StandardIndicatorSet (addr l) sym h ∧
  MarketDataStore (addr l) sym h' = MarketDataStore (addr l) sym h ∧
  StartPrice (addr l) sym h' = StartPrice (addr l) sym h ∧
  LastPrice (addr l) sym h' = LastPrice (addr l) sym h ∧
  Market (addr l) sym h' = Market (addr l) sym h.
Proof.
  intros Hl h'. subst h'.
  unfold StandardIndicatorSet, MarketDataStore, StartPrice, LastPrice, Market.
  rewrite (deref_insert _ _ _ _ Hl). cbn [deref]. rewrite Hl. done.
Qed.

Lemma no_symbol_data_New name exchange (h : list ExchangeSession) :
  no_symbol_data (NewExchangeSession name exchange h).2 (length h).
Proof.
  eexists. split.
  { unfold NewExchangeSession. cbn [snd].
    by rewrite lookup_app_r, Nat.sub_diag. }
  done.
Qed.

Lemma subscribe_chain_spec subs : ∀ l (h : list ExchangeSession),
  no_symbol_data h l →
  ∃ h', subscribe_chain (addr l) subs h = Some (addr l, h') ∧
        no_symbol_data h' l.
Proof.
  induction subs as [|sub subs IH]; intros l h Hno; [by exists h|].
  destruct Hno as (s & Hl & Hm).
  cbn [subscribe_chain]. rewrite (Subscribe_eq _ _ _ _ _ _ Hl). cbn.
  apply IH. exists (recorded (Channel sub) (Symbol sub) (Options sub) s).
  split; [|exact Hm].
  apply list_lookup_insert_eq. by eapply lookup_lt_Some.
Qed.

Lemma no_symbol_data_lookups (h : list ExchangeSession) l sym :
  no_symbol_data h l →
  StandardIndicatorSet (addr l) sym h = Some (nil, false) ∧
  MarketDataStore (addr l) sym h = Some (nil, false) ∧
  StartPrice (addr l) sym h = Some (0%float, false) ∧
  LastPrice (addr l) sym h = Some (0%float, false) ∧
  Market (addr l) sym h = Some (types.zeroMarket, false).
Proof.
  intros (s & Hl & Hm & Hsp & Hlp & Hmds & Hsis).
  unfold StandardIndicatorSet, MarketDataStore, StartPrice, LastPrice, Market.
  cbn [deref]. rewrite Hl. cbn. rewrite Hm, Hsp, Hlp, Hmds, Hsis. done.
Qed.

Lemma Subscribe_no_symbol_data l channel symbol options
    (h : list ExchangeSession) :
  no_symbol_data h l →
  ∃ h1, Subscribe (addr l) channel symbol options h = Some (addr l, h1) ∧
        loaded h1 (addr l) symbol ∧ no_symbol_data h1 l.
Proof.
  intros (s & Hl & Hm).
  assert (<[l := recorded channel symbol options s]> h !! l =
          Some (recorded channel symbol options s)) as Hl1.
  { apply list_lookup_insert_eq. by eapply lookup_lt_Some. }
  exists (<[l := recorded channel symbol options s]> h).
  split; [by apply Subscribe_eq|]. split.
  - exists (recorded channel symbol options s). split; [exact Hl1|].
    cbn. rewrite lookup_insert_eq. by eexists.
  - exists (recorded channel symbol options s). split; [exact Hl1|exact Hm].
Qed.

(** C7.  On an allocated session, [Subscribe] returns the session pointer
    it was called on and records the subscription under itself as key and
    the symbol in the loaded-symbol table; a second call with the same
    arguments returns the same pointer and leaves the whole heap as the
    first call left it; the manifest then has exactly one entry for the
    subscription and the loaded-symbol table exactly one for the symbol. *)
Theorem Subscribe_idempotent l s channel symbol options
    (h : list ExchangeSession) :
  h !! l = Some s →
  let sub := mkSubscription channel symbol options in
  ∃ h1 s1,
    Subscribe (addr l) channel symbol options h = Some (addr l, h1) ∧
    Subscribe (addr l) channel symbol options h1 = Some (addr l, h1) ∧
    h1 !! l = Some s1 ∧
    Subscriptions s1 = <[sub := sub]> (Subscriptions s) ∧
    loadedSymbols s1 = <[symbol := tt]> (loadedSymbols s) ∧
    Subscriptions s1 !! sub = Some sub ∧
    entries_at sub (Subscriptions s1) = 1%nat ∧
    entries_at symbol (loadedSymbols s1) = 1%nat.
Proof.
  intros Hl sub.
  assert (<[l := recorded channel symbol options s]> h !! l =
          Some (recorded channel symbol options s)) as Hl1.
  { apply list_lookup_insert_eq. by eapply lookup_lt_Some. }
  exists (<[l := recorded channel symbol options s]> h),
         (recorded channel symbol options s).
  split; [by apply Subscribe_eq|].
  split.
  { rewrite (Subscribe_eq _ _ _ _ _ _ Hl1).
    by rewrite recorded_idemp, list_insert_insert_eq. }
  split; [exact Hl1|]. split; [done|]. split; [done|].
  split; [apply lookup_insert_eq|].
  split.
  - apply (entries_at_Some _ sub). apply lookup_insert_eq.
  - apply (entries_at_Some _ tt). apply lookup_insert_eq.
Qed.

(** C8.  On a freshly constructed session, also after any chain of
    [Subscribe] calls, each of the five accessors returns for every symbol
    (so for every symbol never loaded) a result, not a panic, and the
    result is the zero value with found = false. *)
Theorem lookups_not_found name exchange (h0 : list ExchangeSession)
    subs symbol :
  let new := NewExchangeSession name exchange h0 in
  ∃ h, subscribe_chain new.1 subs new.2 = Some (new.1, h) ∧
       StandardIndicatorSet new.1 symbol h = Some (nil, false) ∧
       MarketDataStore new.1 symbol h = Some (nil, false) ∧
       StartPrice new.1 symbol h = Some (0%float, false) ∧
       LastPrice new.1 symbol h = Some (0%float, false) ∧
       Market new.1 symbol h = Some (types.zeroMarket, false).
Proof.
  intros new. subst new. cbn [fst NewExchangeSession].
  destruct (subscribe_chain_spec subs (length h0)
              (NewExchangeSession name exchange h0).2
              (no_symbol_data_New name exchange h0)) as (h & Hchain & Hno).
  exists h. split; [exact Hchain|].
  by apply no_symbol_data_lookups.
Qed.

(** *** Chains of [Subscribe] calls *)

Lemma recorded_all_cons sub subs s :
  recorded_all (sub :: subs) s =
  recorded_all subs (recorded (Channel sub) (Symbol sub) (Options sub) s).
Proof. done. Qed.

Lemma mkSubscription_eta (sub : Subscription) :
  mkSubscription (Channel sub) (Symbol sub) (Options sub) = sub.
Proof. by destruct sub. Qed.

Lemma subscribe_chain_eq subs : ∀ l s (h : list ExchangeSession),
  h !! l = Some s →
  subscribe_chain (addr l) subs h =
    Some (addr l, <[l := recorded_all subs s]> h).
Proof.
  induction subs as [|sub subs IH]; intros l s h Hl.
  { cbn. by rewrite list_insert_id. }
  cbn [subscribe_chain]. rewrite (Subscribe_eq _ _ _ _ _ _ Hl). cbn.
  rewrite (IH l (recorded (Channel sub) (Symbol sub) (Options sub) s)).
  - by rewrite list_insert_insert_eq.
  - apply list_lookup_insert_eq. by eapply lookup_lt_Some.
Qed.

Lemma recorded_all_Subscriptions subs : ∀ s k,
  Subscriptions (recorded_all subs s) !! k =
    if decide (k ∈ subs) then Some k else Subscriptions s !! k.
Proof.
  induction subs as [|sub subs IH]; intros s k.
  { cbn. by rewrite decide_False by apply not_elem_of_nil. }
  rewrite recorded_all_cons, IH.
  destruct (decide (k ∈ subs)) as [Hin|Hnin].
  { rewrite decide_True; [done|]. by right. }
  unfold recorded, set_Subscriptions, set_loadedSymbols. cbn [Subscriptions].
  rewrite mkSubscription_eta.
  destruct (decide (k = sub)) as [->|Hne].
  - rewrite lookup_insert_eq, decide_True; [done|]. by left.
  - rewrite lookup_insert_ne by done.
    rewrite decide_False; [done|]. rewrite elem_of_cons. tauto.
Qed.

Lemma recorded_all_loadedSymbols subs : ∀ s sym,
  loadedSymbols (recorded_all subs s) !! sym =
    if decide (sym ∈ Symbol <$> subs) then Some tt else loadedSymbols s !! sym.
Proof.
  induction subs as [|sub subs IH]; intros s sym.
  { cbn. by rewrite decide_False by apply not_elem_of_nil. }
  rewrite recorded_all_cons, IH. rewrite fmap_cons.
  destruct (decide (sym ∈ Symbol <$> subs)) as [Hin|Hnin].
  { rewrite decide_True; [done|]. by right. }
  unfold recorded, set_Subscriptions, set_loadedSymbols. cbn [loadedSymbols].
  destruct (decide (sym = Symbol sub)) as [->|Hne].
  - rewrite lookup_insert_eq, decide_True; [done|]. by left.
  - rewrite lookup_insert_ne by done.
    rewrite decide_False; [done|]. rewrite elem_of_cons. tauto.
Qed.

Lemma recorded_all_eta subs : ∀ s,
  recorded_all subs s =
    mkSession (Notifiability s) (Name s) (Account s) (Stream s)
      (Subscriptions (recorded_all subs s)) (Exchange s) (markets s)
      (startPrices s) (lastPrices s) (Trades s) (marketDataStores s)
      (standardIndicatorSets s) (loadedSymbols (recorded_all subs s)).
Proof.
  induction subs as [|sub subs IH]; intros s; [by destruct s|].
  rewrite recorded_all_cons. by rewrite IH at 1.
Qed.

Lemma subscribe_chain_unallocated session sub subs (h : list ExchangeSession) :
  deref h session = None → subscribe_chain session (sub :: subs) h = None.
Proof.
  intros Hd. cbn [subscribe_chain]. unfold Subscribe.
  destruct session as [|l]; [done|]. cbn in Hd. by rewrite Hd.
Qed.

(** *** Further properties of the session *)

(** X8.  [NewExchangeSession] returns a non-nil pointer that was not
    allocated before, leaves every existing session as it was, and the new
    session has the given name and exchange, the stream the exchange opened,
    and an empty manifest, loaded-symbol table and trade table. *)
Theorem NewExchangeSession_fresh name exchange (h : list ExchangeSession) :
  let r := NewExchangeSession name exchange h in
  ∃ l s, r.1 = addr l ∧ h !! l = None ∧ r.2 !! l = Some s ∧
         length r.2 = S (length h) ∧
         (∀ l' s', h !! l' = Some s' → r.2 !! l' = Some s') ∧
         Name s = name ∧ Exchange s = exchange ∧
         Stream s = types.NewStream exchange ∧
         Subscriptions s = ∅ ∧ loadedSymbols s = ∅ ∧ Trades s = ∅.
Proof.
  intros r. subst r. unfold NewExchangeSession. cbn [fst snd].
  eexists (length h), _. split; [done|].
  split; [by apply lookup_ge_None|].
  split; [by rewrite lookup_app_r, Nat.sub_diag|].
  split; [rewrite length_app; cbn; lia|].
  split; [|done].
  intros l' s' Hl'. by apply lookup_app_l_Some.
Qed.

Lemma lookups_of_maps l s sym (h : list ExchangeSession) :
  h !! l = Some s →
  StandardIndicatorSet (addr l) sym h =
    Some (comma_ok nil (standardIndicatorSets s) sym) ∧
  MarketDataStore (addr l) sym h = Some (comma_ok nil (marketDataStores s) sym) ∧
  StartPrice (addr l) sym h = Some (comma_ok 0%float (startPrices s) sym) ∧
  LastPrice (addr l) sym h = Some (comma_ok 0%float (lastPrices s) sym) ∧
  Market (addr l) sym h = Some (comma_ok types.zeroMarket (markets s) sym).
Proof.
  intros Hl.
  unfold StandardIndicatorSet, MarketDataStore, StartPrice, LastPrice, Market.
  cbn [deref]. rewrite Hl. cbn.
  repeat split.
  - by destruct (comma_ok nil (standardIndicatorSets s) sym).
  - by destruct (comma_ok nil (marketDataStores s) sym).
  - by destruct (comma_ok 0%float (startPrices s) sym).
  - by destruct (comma_ok 0%float (lastPrices s) sym).
  - by destruct (comma_ok types.zeroMarket (markets s) sym).
Qed.

(** The session a chain of [Subscribe] calls on a fresh session leaves. *)
Lemma chain_from_New name exchange (h0 : list ExchangeSession) subs :
  let new := NewExchangeSession name exchange h0 in
  ∃ h s, new.1 = addr (length h0) ∧
         subscribe_chain new.1 subs new.2 = Some (new.1, h) ∧
         h !! length h0 = Some s ∧ no_symbol_data h (length h0) ∧
         (∀ k, Subscriptions s !! k = if decide (k ∈ subs) then Some k else None) ∧
         (∀ sym, loadedSymbols s !! sym =
                 if decide (sym ∈ Symbol <$> subs) then Some tt else None).
Proof.
  intros new. subst new. unfold NewExchangeSession. cbn [fst snd].
  set (s0 := mkSession _ _ _ _ _ _ _ _ _ _ _ _ _).
  assert ((h0 ++ [s0]) !! length h0 = Some s0) as Hl
    by by rewrite lookup_app_r, Nat.sub_diag.
  assert (<[length h0 := recorded_all subs s0]> (h0 ++ [s0]) !! length h0 =
          Some (recorded_all subs s0)) as Hl1.
  { apply list_lookup_insert_eq. by eapply lookup_lt_Some. }
  exists (<[length h0 := recorded_all subs s0]> (h0 ++ [s0])),
         (recorded_all subs s0).
  split; [done|]. split; [by apply subscribe_chain_eq|]. split; [exact Hl1|].
  split.
  { exists (recorded_all subs s0). split; [exact Hl1|].
    rewrite (recorded_all_eta subs s0). by cbn. }
  split.
  - intros k. rewrite recorded_all_Subscriptions.
    destruct (decide (k ∈ subs)); [done|]. by unfold s0; cbn; rewrite lookup_empty.
  - intros sym. rewrite recorded_all_loadedSymbols.
    destruct (decide (sym ∈ Symbol <$> subs)); [done|].
    by unfold s0; cbn; rewrite lookup_empty.
Qed.

(** C9, as the code has it.  [Subscribe] puts the symbol in the
    loaded-symbol table and never makes a symbol's sub-objects partially
    missing: for every symbol each lookup returns after the call what it
    returned before, so the store, indicator registry, price and market
    configuration of a symbol are all found after the call exactly when they
    all were, and none is found exactly when none was.  When the session
    holds all four sub-objects of the subscribed symbol, the four lookups
    return them with found = true.  On a session that was only constructed
    and subscribed to, none of the four is found for any symbol, also for
    the loaded ones. *)
Theorem Subscribe_keeps_sub_objects_together l s channel symbol options
    (h : list ExchangeSession) :
  h !! l = Some s →
  ∃ h1,
    Subscribe (addr l) channel symbol options h = Some (addr l, h1) ∧
    loaded h1 (addr l) symbol ∧
    (∀ sym,
       StandardIndicatorSet (addr l) sym h1 = StandardIndicatorSet (addr l) sym h ∧
       MarketDataStore (addr l) sym h1 = MarketDataStore (addr l) sym h ∧
       StartPrice (addr l) sym h1 = StartPrice (addr l) sym h ∧
       LastPrice (addr l) sym h1 = LastPrice (addr l) sym h ∧
       Market (addr l) sym h1 = Market (addr l) sym h ∧
       (all_found h1 (addr l) sym ↔ all_found h (addr l) sym) ∧
       (none_found h1 (addr l) sym ↔ none_found h (addr l) sym)) ∧
    (∀ set store price market,
       standardIndicatorSets s !! symbol = Some set →
       marketDataStores s !! symbol = Some store →
       lastPrices s !! symbol = Some price →
       markets s !! symbol = Some market →
       StandardIndicatorSet (addr l) symbol h1 = Some (set, true) ∧
       MarketDataStore (addr l) symbol h1 = Some (store, true) ∧
       LastPrice (addr l) symbol h1 = Some (price, true) ∧
       Market (addr l) symbol h1 = Some (market, true) ∧
       all_found h1 (addr l) symbol) ∧
    (∀ name exchange (h0 : list ExchangeSession) subs sym,
       let new := NewExchangeSession name exchange h0 in
       ∃ h', subscribe_chain new.1 subs new.2 = Some (new.1, h') ∧
             none_found h' new.1 sym ∧ ¬ all_found h' new.1 sym ∧
             (sym ∈ Symbol <$> subs → loaded h' new.1 sym)).
Proof.
  intros Hl. exists (<[l := recorded channel symbol options s]> h).
  split; [by apply Subscribe_eq|]. split.
  { exists (recorded channel symbol options s). split.
    - by eapply deref_insert.
    - cbn. rewrite lookup_insert_eq. by eexists. }
  split.
  { intros sym.
    destruct (Subscribe_lookups l s channel symbol options h sym Hl)
      as (H1 & H2 & H3 & H4 & H5).
    repeat (split; [assumption|]).
    unfold all_found, none_found. by rewrite H1, H2, H4, H5. }
  split.
  { intros set store price market Hset Hstore Hprice Hmarket.
    destruct (Subscribe_lookups l s channel symbol options h symbol Hl)
      as (H1 & H2 & _ & H4 & H5).
    destruct (lookups_of_maps l s symbol h Hl) as (L1 & L2 & _ & L4 & L5).
    rewrite (comma_ok_Some _ _ _ _ Hset) in L1.
    rewrite (comma_ok_Some _ _ _ _ Hstore) in L2.
    rewrite (comma_ok_Some _ _ _ _ Hprice) in L4.
    rewrite (comma_ok_Some _ _ _ _ Hmarket) in L5.
    unfold all_found. rewrite H1, H2, H4, H5, L1, L2, L4, L5.
    repeat split; by eexists. }
  intros name exchange h0 subs sym new.
  destruct (chain_from_New name exchange h0 subs)
    as (h' & s' & Hnew & Hchain & Hl' & Hno & _ & Hloaded).
  fold new in Hnew, Hchain. exists h'. split; [exact Hchain|].
  destruct (no_symbol_data_lookups h' (length h0) sym Hno)
    as (N1 & N2 & _ & N4 & N5).
  rewrite Hnew. split; [|split].
  - unfold none_found. rewrite N1, N2, N4, N5. repeat split; by eexists.
  - intros ([v Hv] & _). rewrite N1 in Hv. discriminate.
  - intros Hin. exists s'. split; [exact Hl'|].
    rewrite Hloaded, decide_True by done. by eexists.
Qed.

Lemma Subscribe_frame_at l s channel symbol options (h : list ExchangeSession) :
  h !! l = Some s →
  ∃ h1 s1,
    Subscribe (addr l) channel symbol options h = Some (addr l, h1) ∧
    h1 !! l = Some s1 ∧ length h1 = length h ∧
    (∀ l', l' ≠ l → h1 !! l' = h !! l') ∧
    dom (Subscriptions s1) =
      {[mkSubscription channel symbol options]} ∪ dom (Subscriptions s) ∧
    dom (loadedSymbols s1) = {[symbol]} ∪ dom (loadedSymbols s) ∧
    Notifiability s1 = Notifiability s ∧ Name s1 = Name s ∧
    Account s1 = Account s ∧ Stream s1 = Stream s ∧
    Exchange s1 = Exchange s ∧ markets s1 = markets s ∧
    startPrices s1 = startPrices s ∧ lastPrices s1 = lastPrices s ∧
    Trades s1 = Trades s ∧ marketDataStores s1 = marketDataStores s ∧
    standardIndicatorSets s1 = standardIndicatorSets s.
Proof.
  intros Hl.
  exists (<[l := recorded channel symbol options s]> h),
         (recorded channel symbol options s).
  split; [by apply Subscribe_eq|].
  split; [apply list_lookup_insert_eq; by eapply lookup_lt_Some|].
  split; [apply length_insert|].
  split; [intros l' Hne; by apply list_lookup_insert_ne|].
  split; [apply dom_insert_L|]. split; [apply dom_insert_L|]. done.
Qed.

(** X9.  On a session built by [NewExchangeSession] and subscribed to any
    number of times, a further [Subscribe] changes only that session, and of
    it only the manifest and the loaded-symbol table, which gain the
    subscription and the symbol as keys and lose none: the heap keeps its
    size, every other session and every other field are as before. *)
Theorem Subscribe_frame name exchange (h0 : list ExchangeSession) subs0
    channel symbol options :
  let new := NewExchangeSession name exchange h0 in
  ∃ h s h1 s1,
    subscribe_chain new.1 subs0 new.2 = Some (new.1, h) ∧
    deref h new.1 = Some s ∧
    Subscribe new.1 channel symbol options h = Some (new.1, h1) ∧
    deref h1 new.1 = Some s1 ∧ length h1 = length h ∧
    (∀ p, p ≠ new.1 → deref h1 p = deref h p) ∧
    dom (Subscriptions s1) =
      {[mkSubscription channel symbol options]} ∪ dom (Subscriptions s) ∧
    dom (loadedSymbols s1) = {[symbol]} ∪ dom (loadedSymbols s) ∧
    Notifiability s1 = Notifiability s ∧ Name s1 = Name s ∧
    Account s1 = Account s ∧ Stream s1 = Stream s ∧
    Exchange s1 = Exchange s ∧ markets s1 = markets s ∧
    startPrices s1 = startPrices s ∧ lastPrices s1 = lastPrices s ∧
    Trades s1 = Trades s ∧ marketDataStores s1 = marketDataStores s ∧
    standardIndicatorSets s1 = standardIndicatorSets s.
Proof.
  intros new.
  destruct (chain_from_New name exchange h0 subs0)
    as (h & s & Hnew & Hchain & Hl & _).
  fold new in Hnew, Hchain.
  destruct (Subscribe_frame_at (length h0) s channel symbol options h Hl)
    as (h1 & s1 & Hsub & Hl1 & Hlen & Hother & Hrest).
  exists h, s, h1, s1. rewrite Hnew in *.
  split; [exact Hchain|]. split; [exact Hl|]. split; [exact Hsub|].
  split; [exact Hl1|]. split; [exact Hlen|]. split; [|exact Hrest].
  intros [|l'] Hne; [done|]. cbn. apply Hother. congruence.
Qed.

(** X10.  Two [Subscribe] calls commute: on any receiver and heap, making
    them in either order gives the same result (the same heap, or a panic in
    both orders). *)
Theorem Subscribe_commute session c1 s1 o1 c2 s2 o2 (h : list ExchangeSession) :
  (r ← Subscribe session c1 s1 o1 h; Subscribe r.1 c2 s2 o2 r.2) =
  (r ← Subscribe session c2 s2 o2 h; Subscribe r.1 c1 s1 o1 r.2).
Proof.
  destruct session as [|l]; [done|].
  destruct (h !! l) as [s|] eqn:Hl.
  - assert (∀ s', <[l := s']> h !! l = Some s') as Hl'.
    { intros s'. apply list_lookup_insert_eq. by eapply lookup_lt_Some. }
    rewrite !(Subscribe_eq _ _ _ _ _ _ Hl). cbn [mbind option_bind fst snd].
    rewrite !(Subscribe_eq _ _ _ _ _ _ (Hl' _)), !list_insert_insert_eq.
    do 3 f_equal. unfold recorded, set_Subscriptions, set_loadedSymbols. cbn.
    f_equal.
    + destruct (decide (mkSubscription c1 s1 o1 = mkSubscription c2 s2 o2))
        as [->|Hne]; [done|]. by apply insert_insert_ne.
    + destruct (decide (s1 = s2)) as [->|Hne]; [done|].
      by apply insert_insert_ne.
  - unfold Subscribe. by rewrite Hl.
Qed.

(** X11.  What a chain of [Subscribe] calls leaves in a session built by
    [NewExchangeSession] (and already subscribed to any number of times):
    the chain succeeds and returns the receiver; afterwards the manifest
    maps every subscription of the chain to itself and is as before at every
    other key, and the loaded-symbol table holds every symbol of the chain
    and is as before at every other symbol. *)
Theorem subscribe_chain_manifest name exchange (h0 : list ExchangeSession)
    subs0 subs :
  let new := NewExchangeSession name exchange h0 in
  ∃ h s h1 s1,
    subscribe_chain new.1 subs0 new.2 = Some (new.1, h) ∧
    deref h new.1 = Some s ∧
    subscribe_chain new.1 subs h = Some (new.1, h1) ∧
    deref h1 new.1 = Some s1 ∧
    (∀ k, Subscriptions s1 !! k =
          if decide (k ∈ subs) then Some k else Subscriptions s !! k) ∧
    (∀ sym, loadedSymbols s1 !! sym =
            if decide (sym ∈ Symbol <$> subs) then Some tt
            else loadedSymbols s !! sym).
Proof.
  intros new.
  destruct (chain_from_New name exchange h0 subs0)
    as (h & s & Hnew & Hchain & Hl & _).
  fold new in Hnew, Hchain. rewrite Hnew in *.
  exists h, s, (<[length h0 := recorded_all subs s]> h), (recorded_all subs s).
  split; [exact Hchain|]. split; [exact Hl|].
  split; [by apply subscribe_chain_eq|].
  split; [apply list_lookup_insert_eq; by eapply lookup_lt_Some|].
  split; [apply recorded_all_Subscriptions|apply recorded_all_loadedSymbols].
Qed.

(** X12.  The result of a chain of [Subscribe] calls depends only on which
    subscriptions are in it, not on their order or on repetitions: two
    chains with the same elements give the same result on any receiver and
    heap. *)
Theorem subscribe_chain_set session subs subs' (h : list ExchangeSession) :
  (∀ sub, sub ∈ subs ↔ sub ∈ subs') →
  subscribe_chain session subs h = subscribe_chain session subs' h.
Proof.
  intros Hsame.
  destruct (deref h session) as [s|] eqn:Hd.
  - destruct session as [|l]; [done|]. cbn in Hd.
    rewrite !(subscribe_chain_eq _ _ _ _ Hd). do 3 f_equal.
    rewrite (recorded_all_eta subs), (recorded_all_eta subs'). f_equal.
    + apply map_eq. intros k. rewrite !recorded_all_Subscriptions.
      destruct (decide (k ∈ subs)) as [Hin|Hnin].
      * rewrite decide_True; [done|]. by apply Hsame.
      * rewrite decide_False; [done|]. by rewrite <- Hsame.
    + apply map_eq. intros sym. rewrite !recorded_all_loadedSymbols.
      assert (sym ∈ Symbol <$> subs ↔ sym ∈ Symbol <$> subs') as Hsym.
      { rewrite !list_elem_of_fmap. split; intros (k & -> & Hk);
          exists k; (split; [done|]); by apply Hsame. }
      destruct (decide (sym ∈ Symbol <$> subs)) as [Hin|Hnin].
      * rewrite decide_True; [done|]. by apply Hsym.
      * rewrite decide_False; [done|]. by rewrite <- Hsym.
  - destruct subs as [|sub subs], subs' as [|sub' subs'].
    + done.
    + exfalso. apply (not_elem_of_nil sub'). apply Hsame. by left.
    + exfalso. apply (not_elem_of_nil sub). apply Hsame. by left.
    + by rewrite !subscribe_chain_unallocated.
Qed.

(** X13.  On a session that was only constructed and subscribed to, the
    manifest maps every key to itself, the symbol of every subscription of
    the manifest is loaded, and every loaded symbol is the symbol of a
    subscription of the manifest. *)
Theorem manifest_symbols_loaded name exchange (h0 : list ExchangeSession) subs :
  let new := NewExchangeSession name exchange h0 in
  ∃ h s,
    subscribe_chain new.1 subs new.2 = Some (new.1, h) ∧
    deref h new.1 = Some s ∧
    (∀ k v, Subscriptions s !! k = Some v →
            v = k ∧ is_Some (loadedSymbols s !! Symbol k)) ∧
    (∀ sym, is_Some (loadedSymbols s !! sym) →
            ∃ k, Subscriptions s !! k = Some k ∧ Symbol k = sym).
Proof.
  intros new. subst new. unfold NewExchangeSession. cbn [fst snd].
  set (s0 := mkSession _ _ _ _ _ _ _ _ _ _ _ _ _).
  assert ((h0 ++ [s0]) !! length h0 = Some s0) as Hl
    by by rewrite lookup_app_r, Nat.sub_diag.
  exists (<[length h0 := recorded_all subs s0]> (h0 ++ [s0])),
         (recorded_all subs s0).
  split; [by apply subscribe_chain_eq|].
  split; [apply list_lookup_insert_eq; by eapply lookup_lt_Some|].
  split.
  - intros k v. rewrite recorded_all_Subscriptions, recorded_all_loadedSymbols.
    destruct (decide (k ∈ subs)) as [Hin|Hnin];
      [|by unfold s0; cbn [Subscriptions]; rewrite lookup_empty].
    intros [= <-]. split; [done|].
    rewrite decide_True; [by eexists|]. by apply list_elem_of_fmap_2.
  - intros sym. rewrite recorded_all_loadedSymbols.
    destruct (decide (sym ∈ Symbol <$> subs)) as [Hin|Hnin].
    + intros _. apply list_elem_of_fmap in Hin as (k & -> & Hk).
      exists k. split; [|done].
      by rewrite recorded_all_Subscriptions, decide_True.
    + unfold s0. cbn [loadedSymbols]. rewrite lookup_empty. by intros [? ?].
Qed.

End facts.

Lemma Subscribe_idempotent_witness :
let p := demo_session.1 in
let h := demo_session.2 in
(∃ s, h !! 0%nat = Some s) ∧
∃ h1 s1,
  Subscribe (H := demo_external) p "kline" "BTCUSDT" ("1m", "") h =
    Some (p, h1) ∧
  Subscribe (H := demo_external) p "kline" "BTCUSDT" ("1m", "") h1 =
    Some (p, h1) ∧
  h1 !! 0%nat = Some s1 ∧
  size (Subscriptions s1) = 1%nat ∧ size (loadedSymbols s1) = 1%nat.
Proof.
intros p h. split; [by eexists|].
destruct (Subscribe_idempotent (H := demo_external) 0%nat _
            "kline" "BTCUSDT" ("1m", "") h eq_refl)
  as (h1 & s1 & Hfst & Hsnd & Hl & Hsubs & Hloaded & _).
exists h1, s1. split; [exact Hfst|]. split; [exact Hsnd|].
split; [exact Hl|]. rewrite Hsubs, Hloaded. split; reflexivity.
Defined.

(** C9 as stated fails: after [Subscribe] on a fresh session the symbol is
  in the loaded-symbol table, and none of its sub-objects is found. *)
Lemma loaded_symbol_not_found :
let p := demo_session.1 in
let h := demo_session.2 in
∃ h1, Subscribe (H := demo_external) p "kline" "BTCUSDT" ("1m", "") h =
        Some (p, h1) ∧
      loaded h1 p "BTCUSDT" ∧
      ¬ all_found h1 p "BTCUSDT" ∧
      StandardIndicatorSet p "BTCUSDT" h1 = Some (nil, false) ∧
      MarketDataStore p "BTCUSDT" h1 = Some (nil, false) ∧
      LastPrice p "BTCUSDT" h1 = Some (0%float, false) ∧
      Market p "BTCUSDT" h1 = Some (tt, false).
Proof.
intros p h.
destruct (Subscribe_no_symbol_data (H := demo_external) 0%nat
            "kline" "BTCUSDT" ("1m", "") h
            (no_symbol_data_New (H := demo_external) "binance" tt []))
  as (h1 & Hsub & Hl & Hno).
exists h1. split; [exact Hsub|]. split; [exact Hl|].
destruct (no_symbol_data_lookups h1 0%nat "BTCUSDT" Hno)
  as (H1 & H2 & _ & H4 & H5).
split; [|done].
intros ([v Hv] & _). unfold p in Hv. cbn in Hv, H1. congruence.
Qed.

Lemma Subscribe_keeps_sub_objects_together_witness :
  let h := demo_running_sessions in
  (∃ s, h !! 0%nat = Some s) ∧
  ∃ h1, Subscribe (H := demo_external) (addr 0) "kline" "BTCUSDT" ("1m", "") h =
          Some (addr 0, h1) ∧
        loaded h1 (addr 0) "BTCUSDT" ∧
        StandardIndicatorSet (addr 0) "BTCUSDT" h1 = Some (addr 0, true) ∧
        MarketDataStore (addr 0) "BTCUSDT" h1 = Some (addr 0, true) ∧
        LastPrice (addr 0) "BTCUSDT" h1 = Some (42%float, true) ∧
        Market (addr 0) "BTCUSDT" h1 = Some (tt, true) ∧
        all_found h1 (addr 0) "BTCUSDT".
Proof.
  intros h. split; [by eexists|].
  destruct (Subscribe_keeps_sub_objects_together (H := demo_external) 0%nat _
              "kline" "BTCUSDT" ("1m", "") h eq_refl)
    as (h1 & Hsub & Hloaded & _ & Hfound & _).
  exists h1. split; [exact Hsub|]. split; [exact Hloaded|].
  exact (Hfound (addr 0) (addr 0) 42%float tt eq_refl eq_refl eq_refl eq_refl).
Defined.

Lemma subscribe_chain_set_witness :
  let p := demo_session.1 in
  let h := demo_session.2 in
  let a := mkSubscription (H := demo_external) "kline" "BTCUSDT" ("1m", "") in
  let b := mkSubscription (H := demo_external) "book" "ETHUSDT" ("", "5") in
  (∀ sub, sub ∈ [a; b; a] ↔ sub ∈ [b; a]) ∧
  subscribe_chain p [a; b; a] h = subscribe_chain p [b; a] h.
Proof.
  intros p h a b.
  assert (∀ sub, sub ∈ [a; b; a] ↔ sub ∈ [b; a]) as Hsame.
  { intros sub. rewrite !elem_of_cons, elem_of_nil. tauto. }
  split; [exact Hsame|].
  exact (subscribe_chain_set (H := demo_external) p [a; b; a] [b; a] h Hsame).
Defined.

End SessionFacts.
